(** * Redes-de-Bayes: the expert system of [bayasian.py]

    A shallow embedding of the program: the fact base, the justification
    log, the database tables, the knowledge base (a four-node Bayesian
    network given by its conditional probability tables), the knowledge
    acquisition path and the user-interface callback [run_inference].

    Probabilities are exact rationals ([Q]); the decimal literals of the
    source ([0.7], [0.3], ...) are read as the rationals they denote.
    Python integers are [Z], Python strings are [string], a Python [dict]
    is an insertion-ordered association list. *)

From Stdlib Require Import String Ascii DecimalString.
From Stdlib Require Import ZArith QArith Qabs Lia Lqa Bool Arith PeanoNat.
From Stdlib Require Import List Permutation.
Import ListNotations.

Local Open Scope string_scope.
Local Open Scope list_scope.
Local Open Scope nat_scope.

(** ** Python dictionaries

    [d[k] = v] overwrites the value of an existing key in place and
    appends a new key at the end, so iteration order is insertion order. *)

Module PyDict.

Definition t := list (string * Z).

Definition empty : t := [].

Fixpoint set (k : string) (v : Z) (d : t) : t :=
  match d with
  | [] => [(k, v)]
  | (k', v') :: d' =>
      if String.eqb k' k then (k, v) :: d' else (k', v') :: set k v d'
  end.

Fixpoint get (k : string) (d : t) : option Z :=
  match d with
  | [] => None
  | (k', v') :: d' => if String.eqb k' k then Some v' else get k d'
  end.

Definition keys (d : t) : list string := map fst d.

(** [repr(d)] for a dictionary whose keys are plain identifiers:
    [{'k1': v1, 'k2': v2}]. *)
Definition repr_int (z : Z) : string := NilZero.string_of_int (Z.to_int z).

Definition repr_item (kv : string * Z) : string :=
  ("'" ++ fst kv ++ "': " ++ repr_int (snd kv))%string.

Fixpoint repr_items (d : t) : string :=
  match d with
  | [] => EmptyString
  | [kv] => repr_item kv
  | kv :: d' => (repr_item kv ++ ", " ++ repr_items d')%string
  end.

Definition repr (d : t) : string := ("{" ++ repr_items d ++ "}")%string.

End PyDict.

(** ** FactBase, JustificationSubsystem, Database *)

(** [class FactBase]: [self.facts = {}]. *)
Definition FactBase := PyDict.t.

Definition FactBase_init : FactBase := PyDict.empty.

(** [add_fact(key, value)]: [self.facts[key] = value]. *)
Definition add_fact (key : string) (value : Z) (facts : FactBase) : FactBase :=
  PyDict.set key value facts.

(** [get_facts()]: the dictionary itself. *)
Definition get_facts (facts : FactBase) : PyDict.t := facts.

(** A run of [add_fact] calls, oldest first. *)
Definition add_facts (writes : list (string * Z)) (facts : FactBase) : FactBase :=
  fold_left (fun d kv => add_fact (fst kv) (snd kv) d) writes facts.

(** The value of the most recent write to [k] in [writes], if any. *)
Fixpoint last_write (k : string) (writes : list (string * Z)) : option Z :=
  match writes with
  | [] => None
  | (k', v) :: ws =>
      match last_write k ws with
      | Some v' => Some v'
      | None => if String.eqb k' k then Some v else None
      end
  end.

(** [class JustificationSubsystem]: an append-only list of strings. *)
Definition JustificationSubsystem := list string.

Definition add_justification (j : string) (js : JustificationSubsystem)
  : JustificationSubsystem := js ++ [j].

(** ** Exceptions *)

(** The errors of the inference engine (section 7 of the specification). *)
Inductive Error :=
| DomainError
| ScopeError
| EmptyQueryError
| InvalidEvidenceError
| DegenerateDistributionError.

(** Exceptions that leave a method of the program. *)
Inductive PyExn :=
| AssertionError
| ValueError
| IndexError
| OverflowError
| EngineError (e : Error).

(** [class Database]: the two tables, as their rows in insertion order
    (the autoincrement [id] is the position). *)
Record Database := mkDatabase {
  facts_table : list (string * Z);
  results_table : list Q
}.

(** The [value INTEGER] column holds a signed 64-bit integer. *)
Definition fits_int64 (z : Z) : bool :=
  ((- 2 ^ 63 <=? z) && (z <? 2 ^ 63))%Z.

Definition append_fact (key : string) (value : Z) (db : Database) : Database :=
  {| facts_table := facts_table db ++ [(key, value)];
     results_table := results_table db |}.

(** [insert_fact(key, value)]: a Python integer outside the 64-bit range
    raises [OverflowError] and no row is added. *)
Definition insert_fact (key : string) (value : Z) (db : Database)
  : PyExn + Database :=
  if fits_int64 value then inr (append_fact key value db) else inl OverflowError.

Definition insert_result (result : Q) (db : Database) : Database :=
  {| facts_table := facts_table db;
     results_table := results_table db ++ [result] |}.

(** ** Rational sums and the tolerance *)

(** The floating tolerance of the specification, [1e-6]. *)
Definition epsilon : Q := 1 # 1000000.

Definition Qsum (l : list Q) : Q := fold_right Qplus 0%Q l.

(** [|x - y| <= epsilon], as a test. *)
Definition close_to (x y : Q) : bool := Qle_bool (Qabs (x - y)) epsilon.

(** ** Factors

    The factor algebra and variable elimination are the part of the
    program that the source delegates to its probabilistic-model library
    ([TabularCPD], [check_model], [VariableElimination.query]); the
    library is not part of the repository, so these definitions follow
    sections 3 and 4 of the specification. *)

(** Modelled from the spec: the library's factor. A factor owns its
    scope (an ordered sequence of variable names) and a dense array of
    values, one per joint assignment of the scope in lexicographic order,
    the last variable varying fastest. *)
Record Factor := mkFactor {
  scope : list string;
  values : list Q
}.

(** A fallible result: [inl] an error, [inr] a value. *)
Definition result (A : Type) : Type := (Error + A)%type.

Definition bind {A B : Type} (r : result A) (k : A -> result B) : result B :=
  match r with
  | inl e => inl e
  | inr a => k a
  end.

(** A joint assignment gives every variable name a value index. *)
Definition assignment := string -> nat.

Definition upd (e : assignment) (v : string) (x : nat) : assignment :=
  fun w => if String.eqb w v then x else e w.

Definition mem (v : string) (vs : list string) : bool :=
  existsb (String.eqb v) vs.

(** Scope without [v]. *)
Definition drop (v : string) (vs : list string) : list string :=
  filter (fun w => negb (String.eqb w v)) vs.

(** Order-stable union: the left scope first, then what the right adds. *)
Definition union (a b : list string) : list string :=
  a ++ filter (fun w => negb (mem w a)) b.

Definition mentions (v : string) (f : Factor) : bool := mem v (scope f).

Section Factors.

(** The cardinality of every variable: fixed once the model is built. *)
Variable card : string -> nat.

(** Number of joint assignments of a scope. *)
Definition size (vs : list string) : nat :=
  fold_right (fun v n => card v * n) 1 vs.

(** Position of an assignment in the dense array. *)
Definition index (vs : list string) (e : assignment) : nat :=
  fold_left (fun i v => i * card v + e v) vs 0.

(** All joint assignments of a scope, in array order, over [base]. *)
Fixpoint assignments (vs : list string) (base : assignment) : list assignment :=
  match vs with
  | [] => [base]
  | v :: vs' => flat_map (fun x => assignments vs' (upd base v x)) (seq 0 (card v))
  end.

(** The factor over [vs] whose entry at each assignment is [g] there. *)
Definition tabulate (vs : list string) (g : assignment -> Q) : Factor :=
  {| scope := vs; values := map g (assignments vs (fun _ => 0)) |}.

(** The entry of [f] at assignment [e]. *)
Definition value_at (f : Factor) (e : assignment) : Q :=
  nth (index (scope f) e) (values f) 0%Q.

(** Modelled from the spec: the library's [restrict(variable, value)]
    fixes one scope variable, drops it from the scope and slices the
    array; it fails with [DomainError] when the value is outside the
    domain or the variable is not in the scope. *)
Definition restrict (v : string) (x : nat) (f : Factor) : result Factor :=
  if negb (mentions v f) || (card v <=? x) then inl DomainError
  else inr (tabulate (drop v (scope f)) (fun e => value_at f (upd e v x))).

(** Modelled from the spec: the library's [multiply(other)] is the
    pointwise product over the union of the scopes, the left scope's
    order first. *)
Definition multiply (f g : Factor) : Factor :=
  tabulate (union (scope f) (scope g))
           (fun e => (value_at f e * value_at g e)%Q).

(** Modelled from the spec: the library's [marginalize(variable)] sums
    one variable out; it fails with [ScopeError] when the variable is not
    in the scope. *)
Definition marginalize (v : string) (f : Factor) : result Factor :=
  if mentions v f then
    inr (tabulate (drop v (scope f))
           (fun e => Qsum (map (fun x => value_at f (upd e v x)) (seq 0 (card v)))))
  else inl ScopeError.

(** Modelled from the spec: the library's [normalize()] divides every
    value by the sum of the array; it fails with
    [DegenerateDistributionError] when the sum is at most [epsilon]. *)
Definition normalize (f : Factor) : result Factor :=
  let s := Qsum (values f) in
  if Qle_bool s epsilon then inl DegenerateDistributionError
  else inr {| scope := scope f; values := map (fun x => (x / s)%Q) (values f) |}.

(** The factor over no variable with the single value [1]. *)
Definition unit_factor : Factor := {| scope := []; values := [1%Q] |}.

Definition multiply_all (fs : list Factor) : Factor :=
  fold_left multiply fs unit_factor.

(** Modelled from the spec: step 1 of the library's elimination
    restricts a factor by every evidence variable that appears in its
    scope. *)
Fixpoint restrict_evidence (ev : list (string * nat)) (f : Factor) : result Factor :=
  match ev with
  | [] => inr f
  | (v, x) :: ev' =>
      if mentions v f
      then bind (restrict v x f) (restrict_evidence ev')
      else restrict_evidence ev' f
  end.

Fixpoint restrict_all (ev : list (string * nat)) (fs : list Factor)
  : result (list Factor) :=
  match fs with
  | [] => inr []
  | f :: fs' =>
      bind (restrict_evidence ev f) (fun g =>
      bind (restrict_all ev fs') (fun gs => inr (g :: gs)))
  end.

(** Modelled from the spec: step 3 of the library's elimination, for
    one variable: multiply every factor that mentions it, sum it out of
    the product, and put the result in the working set in place of those
    factors. *)
Definition eliminate (v : string) (fs : list Factor) : result (list Factor) :=
  bind (marginalize v (multiply_all (filter (mentions v) fs))) (fun g =>
  inr (filter (fun f => negb (mentions v f)) fs ++ [g])).

Fixpoint eliminate_all (order : list string) (fs : list Factor)
  : result (list Factor) :=
  match order with
  | [] => inr fs
  | v :: order' => bind (eliminate v fs) (eliminate_all order')
  end.

(** Modelled from the spec: step 2 of the library's elimination orders
    the variables by the size of the factor that eliminating each would
    create, read off the scopes of the working set. *)
Definition merged_scope (scopes : list (list string)) (v : string) : list string :=
  drop v (fold_left union (filter (mem v) scopes) []).

Definition elim_cost (scopes : list (list string)) (v : string) : nat :=
  size (merged_scope scopes v).

Definition elim_scopes (scopes : list (list string)) (v : string)
  : list (list string) :=
  filter (fun s => negb (mem v s)) scopes ++ [merged_scope scopes v].

(** The first candidate of least cost: ties go to the earlier one. *)
Fixpoint argmin (cost : string -> nat) (best : string) (cands : list string) : string :=
  match cands with
  | [] => best
  | c :: cs => if cost c <? cost best then argmin cost c cs else argmin cost best cs
  end.

Fixpoint remove_first (v : string) (vs : list string) : list string :=
  match vs with
  | [] => []
  | w :: ws => if String.eqb w v then ws else w :: remove_first v ws
  end.

(** Modelled from the spec: the library's elimination order, greedy by
    minimum resulting factor size over the candidates (in registration
    order), ties going to the earlier candidate; [fuel] is the number of
    candidates. *)
Fixpoint min_size_order (fuel : nat) (scopes : list (list string))
         (cands : list string) : list string :=
  match fuel, cands with
  | S n, c :: cs =>
      let v := argmin (elim_cost scopes) c cs in
      v :: min_size_order n (elim_scopes scopes v) (remove_first v cands)
  | _, _ => []
  end.

End Factors.

(** ** The probabilistic model *)

(** [TabularCPD(variable, variable_card, values, evidence, evidence_card)]:
    [cpd_values] has one row per state of [variable] and one column per
    joint assignment of [evidence], the last evidence variable varying
    fastest. *)
Record TabularCPD := mkCPD {
  variable : string;
  variable_card : nat;
  cpd_values : list (list Q);
  evidence : list string;
  evidence_card : list nat
}.

Record BayesianNetwork := mkModel {
  nodes : list string;
  edges : list (string * string);
  cpds : list TabularCPD
}.

(** [BayesianNetwork(ebunch)]: the nodes are the endpoints of the edges,
    in order of first appearance. *)
Definition add_node (v : string) (vs : list string) : list string :=
  if mem v vs then vs else vs ++ [v].

Definition BayesianNetwork_init (ebunch : list (string * string)) : BayesianNetwork :=
  {| nodes := fold_left (fun vs e => add_node (snd e) (add_node (fst e) vs)) ebunch [];
     edges := ebunch;
     cpds := [] |}.

(** Modelled from the spec: the library's "attaches/replaces the
    ConditionalFactor for a variable": the CPD takes the place of the one
    its variable had, or is appended. *)
Fixpoint attach (cpd : TabularCPD) (cs : list TabularCPD) : list TabularCPD :=
  match cs with
  | [] => [cpd]
  | c :: cs' =>
      if String.eqb (variable c) (variable cpd) then cpd :: cs'
      else c :: attach cpd cs'
  end.

Definition attach_cpd (cpd : TabularCPD) (m : BayesianNetwork) : BayesianNetwork :=
  {| nodes := nodes m; edges := edges m; cpds := attach cpd (cpds m) |}.

Definition attach_all (cs : list TabularCPD) (m : BayesianNetwork) : BayesianNetwork :=
  fold_left (fun m' cpd => attach_cpd cpd m') cs m.

(** Every variable of the CPD's scope is a variable of the model. *)
Definition on_nodes (m : BayesianNetwork) (cpd : TabularCPD) : bool :=
  forallb (fun v => mem v (nodes m)) (variable cpd :: evidence cpd).

(** Modelled from the spec: [add_cpds] is the library call behind
    [set_conditional]. It attaches its CPDs in turn and fails, with
    [ValueError], on the first one whose scope is not made of variables
    of the model; the CPDs before it stay attached. It does not check
    normalization: the reference validates only after all adds, through
    [check_model]. The second component is the model when the call
    ends. *)
Fixpoint add_cpds (new_cpds : list TabularCPD) (m : BayesianNetwork)
  : option PyExn * BayesianNetwork :=
  match new_cpds with
  | [] => (None, m)
  | cpd :: rest =>
      if on_nodes m cpd then add_cpds rest (attach_cpd cpd m)
      else (Some ValueError, m)
  end.

(** The CPDs of a batch that get attached: all of them, or those before
    the first one that is not on the variables of the model. *)
Fixpoint attached (m : BayesianNetwork) (batch : list TabularCPD) : list TabularCPD :=
  match batch with
  | [] => []
  | cpd :: rest => if on_nodes m cpd then cpd :: attached m rest else []
  end.

Definition get_cpd (v : string) (m : BayesianNetwork) : option TabularCPD :=
  find (fun c => String.eqb (variable c) v) (cpds m).

(** The cardinality of a variable is the one its CPD declares. *)
Definition cardinality (m : BayesianNetwork) (v : string) : nat :=
  match get_cpd v m with
  | Some c => variable_card c
  | None => 1
  end.

Definition parents (v : string) (m : BayesianNetwork) : list string :=
  map fst (filter (fun e => String.eqb (snd e) v) (edges m)).

Fixpoint nodupb (vs : list string) : bool :=
  match vs with
  | [] => true
  | v :: vs' => negb (mem v vs') && nodupb vs'
  end.

Definition subset (a b : list string) : bool := forallb (fun v => mem v b) a.

(** Acyclicity by repeatedly removing the nodes without incoming edge. *)
Fixpoint acyclic_from (fuel : nat) (ns : list string) (es : list (string * string)) : bool :=
  match ns with
  | [] => true
  | _ :: _ =>
      match fuel with
      | 0 => false
      | S fuel' =>
          let roots := filter (fun v => negb (existsb (fun e => String.eqb (snd e) v) es)) ns in
          match roots with
          | [] => false
          | _ :: _ =>
              acyclic_from fuel'
                (filter (fun v => negb (mem v roots)) ns)
                (filter (fun e => negb (mem (fst e) roots)) es)
          end
      end
  end.

Definition acyclic (m : BayesianNetwork) : bool :=
  acyclic_from (length (nodes m)) (nodes m) (edges m).

(** Column [j] of a CPD table: the distribution of the child for the
    [j]-th joint assignment of the parents. *)
Definition column (c : TabularCPD) (j : nat) : list Q :=
  map (fun row => nth j row 0%Q) (cpd_values c).

Definition columns (c : TabularCPD) : nat := fold_right Nat.mul 1 (evidence_card c).

(** Per-node normalization: every column sums to 1 within [epsilon]. *)
Definition is_valid_cpd (c : TabularCPD) : bool :=
  forallb (fun j => close_to (Qsum (column c j)) 1) (seq 0 (columns c)).

Definition cpd_ok (m : BayesianNetwork) (c : TabularCPD) : bool :=
  (1 <=? variable_card c)
  && mem (variable c) (nodes m)
  && nodupb (variable c :: evidence c)
  && subset (evidence c) (parents (variable c) m)
  && subset (parents (variable c) m) (evidence c)
  && (length (evidence_card c) =? length (evidence c))
  && forallb (fun p => snd p =? cardinality m (fst p))
             (combine (evidence c) (evidence_card c))
  && (length (cpd_values c) =? variable_card c)
  && forallb (fun row => length row =? columns c) (cpd_values c)
  && forallb (forallb (Qle_bool 0)) (cpd_values c)
  && is_valid_cpd c.

(** Modelled from the spec: [check_model] is the library's validation,
    "checks acyclicity, completeness (every variable has a
    ConditionalFactor), and per-node normalization", together with the
    model invariants of section 3 (one CPD per variable, CPD scope equal
    to the variable and its parents, non-negative values). *)
Definition check_model (m : BayesianNetwork) : bool :=
  nodupb (nodes m)
  && forallb (fun e => mem (fst e) (nodes m) && mem (snd e) (nodes m)) (edges m)
  && acyclic m
  && forallb (fun v => match get_cpd v m with Some _ => true | None => false end) (nodes m)
  && nodupb (map variable (cpds m))
  && forallb (cpd_ok m) (cpds m).

(** A CPD as a factor over its variable followed by its parents. *)
Definition to_factor (c : TabularCPD) : Factor :=
  {| scope := variable c :: evidence c; values := concat (cpd_values c) |}.

(** ** Variable elimination

    The engine works on a store that holds the model and the query-local
    working set of factors. *)

Record Engine := mkEngine {
  eng_model : BayesianNetwork;
  eng_factors : list Factor
}.

Definition M (A : Type) : Type := Engine -> result A * Engine.

Definition ret {A : Type} (a : A) : M A := fun s => (inr a, s).

Definition fail {A : Type} (e : Error) : M A := fun s => (inl e, s).

Definition lift {A : Type} (r : result A) : M A := fun s => (r, s).

Definition mbind {A B : Type} (c : M A) (k : A -> M B) : M B :=
  fun s =>
    match c s with
    | (inl e, s') => (inl e, s')
    | (inr a, s') => k a s'
    end.

Declare Scope engine_scope.
Delimit Scope engine_scope with engine.
Notation "x <- c ;; k" := (mbind c (fun x => k))
  (at level 61, c at next level, right associativity) : engine_scope.
Notation "c ;;; k" := (mbind c (fun _ => k))
  (at level 61, right associativity) : engine_scope.

Definition read_model : M BayesianNetwork := fun s => (inr (eng_model s), s).

Definition read_factors : M (list Factor) := fun s => (inr (eng_factors s), s).

Definition write_factors (fs : list Factor) : M unit :=
  fun s => (inr tt, {| eng_model := eng_model s; eng_factors := fs |}).

Fixpoint for_each (vs : list string) (body : string -> M unit) : M unit :=
  match vs with
  | [] => ret tt
  | v :: vs' => mbind (body v) (fun _ => for_each vs' body)
  end.

(** Modelled from the spec: the library's check of the evidence
    ([InvalidEvidenceError] otherwise). Evidence is acceptable when every
    observed variable is a variable of the model, is not queried, and its
    value lies in the variable's domain. *)
Definition evidence_ok (m : BayesianNetwork) (variables : list string)
           (ev : PyDict.t) : bool :=
  forallb (fun kv =>
             mem (fst kv) (nodes m)
             && negb (mem (fst kv) variables)
             && (0 <=? snd kv)%Z
             && (snd kv <? Z.of_nat (cardinality m (fst kv)))%Z) ev.

Definition observed (ev : PyDict.t) : list (string * nat) :=
  map (fun kv => (fst kv, Z.to_nat (snd kv))) ev.

(** The variables to eliminate, in registration order. *)
Definition hidden (m : BayesianNetwork) (variables : list string) (ev : PyDict.t)
  : list string :=
  filter (fun v => negb (mem v variables) && negb (mem v (PyDict.keys ev))) (nodes m).

(** The scopes of the working set after step 1. *)
Definition initial_scopes (m : BayesianNetwork) (ev : PyDict.t) : list (list string) :=
  map (fun c => filter (fun v => negb (mem v (PyDict.keys ev))) (scope (to_factor c)))
      (cpds m).

Definition elimination_order (m : BayesianNetwork) (variables : list string)
           (ev : PyDict.t) : list string :=
  let cands := hidden m variables ev in
  min_size_order (cardinality m) (length cands) (initial_scopes m ev) cands.

(** One round of step 3 on the working set of the store. *)
Definition eliminate_step (card : string -> nat) (v : string) : M unit :=
  (fs <- read_factors ;;
   fs' <- lift (eliminate card v fs) ;;
   write_factors fs')%engine.

(** Modelled from the spec: the library's [query(variables, evidence)]
    along a given elimination order, steps 1 to 5 of section 4.3:
    restrict the CPDs by the evidence, eliminate the variables of the
    order, multiply what is left and normalize. *)
Definition query_with_order (variables : list string) (ev : PyDict.t)
           (order : list string) : M Factor :=
  (m <- read_model ;;
   match variables with
   | [] => fail EmptyQueryError
   | _ :: _ =>
       if negb (evidence_ok m variables ev) then fail InvalidEvidenceError
       else
         fs0 <- lift (restrict_all (cardinality m) (observed ev)
                                   (map to_factor (cpds m))) ;;
         write_factors fs0 ;;;
         for_each order (eliminate_step (cardinality m)) ;;;
         fs <- read_factors ;;
         lift (normalize (multiply_all (cardinality m) fs))
   end)%engine.

(** Modelled from the spec: the library's [query(variables, evidence)]
    with its own, greedy elimination order. *)
Definition query (variables : list string) (ev : PyDict.t) : M Factor :=
  (m <- read_model ;;
   query_with_order variables ev (elimination_order m variables ev))%engine.

(** The answer of a query with a given order on a given model. *)
Definition posterior_with_order (m : BayesianNetwork) (variables : list string)
           (ev : PyDict.t) (order : list string) : result Factor :=
  fst (query_with_order variables ev order {| eng_model := m; eng_factors := [] |}).


(** ** KnowledgeBase *)

Definition cpd_inteligencia : TabularCPD :=
  {| variable := "Inteligencia"; variable_card := 2;
     cpd_values := [[0.7]; [0.3]]%Q;
     evidence := []; evidence_card := [] |}.

Definition cpd_dificultad : TabularCPD :=
  {| variable := "Dificultad"; variable_card := 2;
     cpd_values := [[0.6]; [0.4]]%Q;
     evidence := []; evidence_card := [] |}.

Definition cpd_asistencia : TabularCPD :=
  {| variable := "Asistencia"; variable_card := 2;
     cpd_values := [[0.8]; [0.2]]%Q;
     evidence := []; evidence_card := [] |}.

Definition cpd_nota : TabularCPD :=
  {| variable := "Nota"; variable_card := 2;
     cpd_values := [[0.9; 0.7; 0.8; 0.1; 0.8; 0.6; 0.7; 0.3];
                    [0.1; 0.3; 0.2; 0.9; 0.2; 0.4; 0.3; 0.7]]%Q;
     evidence := ["Inteligencia"; "Dificultad"; "Asistencia"];
     evidence_card := [2; 2; 2] |}.

(** The calls the program makes to its model and to the message box, in
    the order they happen. *)
Inductive Event :=
| CheckModel (m : BayesianNetwork) (ok : bool)
| Infer (m : BayesianNetwork) (ev : PyDict.t)
| ShowError.

(** [self.model.check_model()] as the knowledge base calls it: the call
    and its answer go into the history. *)
Definition call_check_model (m : BayesianNetwork) (h : list Event)
  : bool * list Event :=
  (check_model m, h ++ [CheckModel m (check_model m)]).

(** [_define_cpds()]: [self.model.add_cpds(...)] on the four CPDs, then
    [assert self.model.check_model()]. The second component is the
    history when the method ends. *)
Definition define_cpds (model : BayesianNetwork) (h : list Event)
  : (PyExn + BayesianNetwork) * list Event :=
  match add_cpds [cpd_inteligencia; cpd_dificultad; cpd_asistencia; cpd_nota] model with
  | (Some e, _) => (inl e, h)
  | (None, model') =>
      let r := call_check_model model' h in
      if fst r then (inr model', snd r) else (inl AssertionError, snd r)
  end.

(** [KnowledgeBase()]: build the network from its edges, then
    [_define_cpds()]. *)
Definition KnowledgeBase_init (h : list Event)
  : (PyExn + BayesianNetwork) * list Event :=
  define_cpds (BayesianNetwork_init [("Inteligencia", "Nota");
                                     ("Dificultad", "Nota");
                                     ("Asistencia", "Nota")]) h.

(** The model of the knowledge base once its four CPDs are attached. *)
Definition KnowledgeBase_model : BayesianNetwork :=
  snd (add_cpds [cpd_inteligencia; cpd_dificultad; cpd_asistencia; cpd_nota]
         (BayesianNetwork_init [("Inteligencia", "Nota");
                                ("Dificultad", "Nota");
                                ("Asistencia", "Nota")])).

(** ** InferenceEngine

    [infer(evidence)] is [query(variables=['Nota'], evidence=evidence)]
    on the model the engine was built with; the second component is that
    model after the call. *)
Definition infer (ev : PyDict.t) (model : BayesianNetwork)
  : result Factor * BayesianNetwork :=
  let r := query ["Nota"] ev {| eng_model := model; eng_factors := [] |} in
  (fst r, eng_model (snd r)).

(** ** KnowledgeAcquisitionSystem *)

(** The loop of [update_knowledge]: [add_cpds(cpd)] for each CPD in
    turn; an exception ends the loop, with what was attached so far
    still in the model. *)
Fixpoint add_each (new_cpds : list TabularCPD) (model : BayesianNetwork)
  : option PyExn * BayesianNetwork :=
  match new_cpds with
  | [] => (None, model)
  | cpd :: rest =>
      match add_cpds [cpd] model with
      | (Some e, model') => (Some e, model')
      | (None, model') => add_each rest model'
      end
  end.

(** [update_knowledge(new_cpds)]: the loop, then
    [assert self.knowledge_base.model.check_model()], which is reached
    only when the loop ends normally. The second component is the model
    the knowledge base holds when the call ends, normally or not. *)
Definition update_knowledge (new_cpds : list TabularCPD) (model : BayesianNetwork)
  : option PyExn * BayesianNetwork :=
  match add_each new_cpds model with
  | (Some e, model') => (Some e, model')
  | (None, model') =>
      if check_model model' then (None, model') else (Some AssertionError, model')
  end.

(** The CPD that a batch attaches last for variable [v], if any. *)
Fixpoint last_cpd (v : string) (batch : list TabularCPD) : option TabularCPD :=
  match batch with
  | [] => None
  | c :: cs =>
      match last_cpd v cs with
      | Some c' => Some c'
      | None => if String.eqb (variable c) v then Some c else None
      end
  end.

(** ** ExpertSystem and UserInterface *)

(** The object graph of [ExpertSystem]. [result_label] is the probability
    the label shows ([None] while its text is empty); [history] records
    the calls made so far. *)
Record ExpertSystem := mkExpertSystem {
  knowledge_base : BayesianNetwork;
  fact_base : FactBase;
  justification_subsystem : JustificationSubsystem;
  database : Database;
  result_label : option Q;
  history : list Event
}.

(** [ExpertSystem()]: [KnowledgeBase()] comes first and the history
    starts with the calls it made; the other parts start empty, and the
    database file may hold rows of earlier runs. *)
Definition ExpertSystem_init (db : Database) : PyExn + ExpertSystem :=
  match KnowledgeBase_init [] with
  | (inl e, _) => inl e
  | (inr model, h) =>
      inr {| knowledge_base := model;
             fact_base := FactBase_init;
             justification_subsystem := [];
             database := db;
             result_label := None;
             history := h |}
  end.

Definition log (ev : Event) (st : ExpertSystem) : ExpertSystem :=
  {| knowledge_base := knowledge_base st;
     fact_base := fact_base st;
     justification_subsystem := justification_subsystem st;
     database := database st;
     result_label := result_label st;
     history := history st ++ [ev] |}.

Definition with_facts (f : FactBase -> FactBase) (st : ExpertSystem) : ExpertSystem :=
  {| knowledge_base := knowledge_base st;
     fact_base := f (fact_base st);
     justification_subsystem := justification_subsystem st;
     database := database st;
     result_label := result_label st;
     history := history st |}.

Definition with_model (m : BayesianNetwork) (st : ExpertSystem) : ExpertSystem :=
  {| knowledge_base := m;
     fact_base := fact_base st;
     justification_subsystem := justification_subsystem st;
     database := database st;
     result_label := result_label st;
     history := history st |}.

Definition with_justification (j : string) (st : ExpertSystem) : ExpertSystem :=
  {| knowledge_base := knowledge_base st;
     fact_base := fact_base st;
     justification_subsystem := add_justification j (justification_subsystem st);
     database := database st;
     result_label := result_label st;
     history := history st |}.

Definition with_database (f : Database -> Database) (st : ExpertSystem) : ExpertSystem :=
  {| knowledge_base := knowledge_base st;
     fact_base := fact_base st;
     justification_subsystem := justification_subsystem st;
     database := f (database st);
     result_label := result_label st;
     history := history st |}.

Definition with_label (p : Q) (st : ExpertSystem) : ExpertSystem :=
  {| knowledge_base := knowledge_base st;
     fact_base := fact_base st;
     justification_subsystem := justification_subsystem st;
     database := database st;
     result_label := Some p;
     history := history st |}.

(** [messagebox.showerror(...)]. *)
Definition showerror (st : ExpertSystem) : ExpertSystem := log ShowError st.

(** [x not in [0, 1]]. *)
Definition not_in_01 (x : Z) : bool := negb ((x =? 0)%Z || (x =? 1)%Z).

(** Modelled from the spec: the exceptions that [except ValueError]
    catches are the [ValueError] of the callback itself and, of the
    errors of the engine, the two that section 7 has the user interface
    turn into an input-correction prompt ([DomainError] and
    [InvalidEvidenceError]). Every other exception leaves the
    callback. *)
Definition caught (e : PyExn) : bool :=
  match e with
  | ValueError => true
  | EngineError DomainError => true
  | EngineError InvalidEvidenceError => true
  | _ => false
  end.

(** What the [try] block does with an exception raised in state [st]. *)
Definition handle (e : PyExn) (st : ExpertSystem) : option PyExn * ExpertSystem :=
  if caught e then (None, showerror st) else (Some e, st).

(** [self.expert_system.database.insert_fact(key, value)] on the state. *)
Definition store_fact (key : string) (value : Z) (st : ExpertSystem)
  : PyExn + ExpertSystem :=
  match insert_fact key value (database st) with
  | inl e => inl e
  | inr db => inr (with_database (fun _ => db) st)
  end.

Section UserInterface.

(** Python's [int(str)]: [None] stands for [ValueError]. *)
Variable int : string -> option Z.

(** The button callback, on the texts of the two entries. The first
    component is the exception that escapes the callback, if any. *)
Definition run_inference (inteligencia_entry asistencia_entry : string)
           (st : ExpertSystem) : option PyExn * ExpertSystem :=
  match int inteligencia_entry with
  | None => handle ValueError st
  | Some inteligencia =>
      match int asistencia_entry with
      | None => handle ValueError st
      | Some asistencia =>
          if not_in_01 inteligencia || not_in_01 asistencia
          then handle ValueError st
          else
            let st1 := with_facts (add_fact "Inteligencia" inteligencia) st in
            let st2 := with_facts (add_fact "Asistencia" asistencia) st1 in
            let facts := get_facts (fact_base st2) in
            let r := infer facts (knowledge_base st2) in
            let st3 := log (Infer (knowledge_base st2) facts)
                           (with_model (snd r) st2) in
            match fst r with
            | inl e => handle (EngineError e) st3
            | inr result =>
                match nth_error (values result) 1 with
                | None => handle IndexError st3
                | Some result_value =>
                    let st4 := with_justification
                                 ("Resultado basado en hechos: "
                                    ++ PyDict.repr (get_facts (fact_base st3)))%string
                                 st3 in
                    match store_fact "Inteligencia" inteligencia st4 with
                    | inl e => handle e st4
                    | inr st5 =>
                        match store_fact "Asistencia" asistencia st5 with
                        | inl e => handle e st5
                        | inr st6 =>
                            let st7 := with_database (insert_result result_value) st6 in
                            (None, with_label result_value st7)
                        end
                    end
                end
            end
      end
  end.

(** [mainloop()]: one callback per click; an exception that escapes a
    callback is reported and the loop goes on. *)
Definition mainloop (clicks : list (string * string)) (st : ExpertSystem)
  : ExpertSystem :=
  fold_left (fun s c => snd (run_inference (fst c) (snd c) s)) clicks st.

(** The program: [ExpertSystem()] then [run()]. *)
Definition main (db : Database) (clicks : list (string * string))
  : PyExn + ExpertSystem :=
  match ExpertSystem_init db with
  | inl e => inl e
  | inr st => inr (mainloop clicks st)
  end.

End UserInterface.

(** A decimal reader for the ASCII inputs of [int]: surrounding blanks,
    an optional sign, then digits, with single underscores allowed
    between digits. *)
Definition is_blank (c : ascii) : bool :=
  match c with
  | " "%char | "009"%char | "010"%char | "011"%char | "012"%char | "013"%char => true
  | _ => false
  end.

Definition digit_of (c : ascii) : option Z :=
  let n := nat_of_ascii c in
  if (48 <=? n) && (n <=? 57) then Some (Z.of_nat (n - 48)) else None.

Fixpoint lstrip (s : list ascii) : list ascii :=
  match s with
  | c :: s' => if is_blank c then lstrip s' else s
  | [] => []
  end.

Definition strip (s : list ascii) : list ascii := rev (lstrip (rev (lstrip s))).

Fixpoint digits (acc : Z) (after_digit : bool) (s : list ascii) : option Z :=
  match s with
  | [] => if after_digit then Some acc else None
  | c :: s' =>
      match digit_of c with
      | Some d => digits (10 * acc + d)%Z true s'
      | None =>
          if after_digit && Ascii.eqb c "_"%char then digits acc false s' else None
      end
  end.

Definition unsigned (s : list ascii) : option Z := digits 0%Z false s.

Definition int_ascii (s : string) : option Z :=
  match strip (list_ascii_of_string s) with
  | "-"%char :: s' => option_map Z.opp (unsigned s')
  | "+"%char :: s' => unsigned s'
  | s' => unsigned s'
  end.

(** A CPD is normalized when, for every assignment of its parents within
    their domains, the entries over the child's states sum to 1 within
    [epsilon]. [column_index] is the column of a parent assignment. *)
Definition column_index (cards : list nat) (pa : list nat) : nat :=
  fold_left (fun i p => i * fst p + snd p) (combine cards pa) 0.

Definition cpd_entry (c : TabularCPD) (x : nat) (pa : list nat) : Q :=
  nth (column_index (evidence_card c) pa) (nth x (cpd_values c) []) 0%Q.

Definition normalized (c : TabularCPD) : Prop :=
  forall pa : list nat,
    Forall2 lt pa (evidence_card c) ->
    (Qabs (Qsum (map (fun x => cpd_entry c x pa) (seq 0 (variable_card c))) - 1)
       <= epsilon)%Q.

(** A batch for the acquisition path: two CPDs that are valid and, in
    between, one whose column sums to 1.2. *)
Definition cpd_dificultad_even : TabularCPD :=
  {| variable := "Dificultad"; variable_card := 2;
     cpd_values := [[0.5]; [0.5]]%Q;
     evidence := []; evidence_card := [] |}.

Definition cpd_inteligencia_bad : TabularCPD :=
  {| variable := "Inteligencia"; variable_card := 2;
     cpd_values := [[0.9]; [0.3]]%Q;
     evidence := []; evidence_card := [] |}.

Definition cpd_asistencia_high : TabularCPD :=
  {| variable := "Asistencia"; variable_card := 2;
     cpd_values := [[0.1]; [0.9]]%Q;
     evidence := []; evidence_card := [] |}.

Definition mixed_batch : list TabularCPD :=
  [cpd_dificultad_even; cpd_inteligencia_bad; cpd_asistencia_high].

(** A CPD for a variable that the network of the knowledge base does not
    have. *)
Definition cpd_motivacion : TabularCPD :=
  {| variable := "Motivacion"; variable_card := 2;
     cpd_values := [[0.5]; [0.5]]%Q;
     evidence := []; evidence_card := [] |}.

(** ** Notions used to state what the engine computes *)

Section Semantics.

Variable card : string -> nat.

(** An assignment is in the domains when every value index is below the
    cardinality of its variable. *)
Definition in_domain (e : assignment) : Prop := forall v, e v < card v.

(** [e] on the variables of [vs], [base] elsewhere. *)
Definition overlay (vs : list string) (e base : assignment) : assignment :=
  fold_left (fun b v => upd b v (e v)) vs base.

(** A function of assignments that looks at the variables of [vs] only. *)
Definition local_to (vs : list string) (g : assignment -> Q) : Prop :=
  forall e e', (forall v, In v vs -> e v = e' v) -> g e = g e'.

(** The product of the working set at an assignment. *)
Definition product_at (fs : list Factor) (e : assignment) : Q :=
  fold_right (fun f q => (value_at card f e * q)%Q) 1%Q fs.

(** [g] summed over the variables of [vs], the first one innermost. *)
Fixpoint sum_out (vs : list string) (g : assignment -> Q) (e : assignment) : Q :=
  match vs with
  | [] => g e
  | v :: vs' =>
      sum_out vs' (fun e' => Qsum (map (fun x => g (upd e' v x)) (seq 0 (card v)))) e
  end.

(** [g] summed over the variables of [vs], the first one outermost: the
    order in which a dense array lists its entries. *)
Fixpoint sum_in (vs : list string) (g : assignment -> Q) (e : assignment) : Q :=
  match vs with
  | [] => g e
  | v :: vs' => Qsum (map (fun x => sum_in vs' g (upd e v x)) (seq 0 (card v)))
  end.

(** [g] gives equal values to assignments that agree everywhere. *)
Definition respects (g : assignment -> Q) : Prop :=
  forall e e', (forall v, e v = e' v) -> (g e == g e')%Q.

(** Some factor of the working set mentions [v]. *)
Definition mentioned (fs : list Factor) (v : string) : Prop :=
  exists f, In f fs /\ In v (scope f).

(** Every factor of the working set has a duplicate-free scope. *)
Definition nodup_scopes (fs : list Factor) : Prop :=
  Forall (fun f => NoDup (scope f)) fs.

(** A factor whose array lists its own entries in array order. *)
Definition tabulated (f : Factor) : Prop :=
  values f = map (value_at card f) (assignments card (scope f) (fun _ => 0)).

(** All the values of a factor are non-negative. *)
Definition nonneg (f : Factor) : Prop := Forall (fun x => 0 <= x)%Q (values f).

(** Two answers of the engine agree: the same error, or distributions
    over the same variables with the same value at every assignment;
    when the two scopes list the variables in the same order, the two
    arrays are equal entry by entry. *)
Definition same_answer (r1 r2 : result Factor) : Prop :=
  match r1, r2 with
  | inr f1, inr f2 =>
      Permutation (scope f1) (scope f2)
      /\ (forall e, in_domain e ->
            (value_at card f1 e == value_at card f2 e)%Q
            /\ (Qabs (value_at card f1 e - value_at card f2 e) <= epsilon)%Q)
      /\ (scope f1 = scope f2 -> Forall2 Qeq (values f1) (values f2))
  | inl e1, inl e2 => e1 = e2
  | _, _ => False
  end.

End Semantics.

(** A valid elimination order lists the variables that are neither
    queried nor observed, each once. *)
Definition valid_order (m : BayesianNetwork) (variables : list string)
           (ev : PyDict.t) (order : list string) : Prop :=
  Permutation order (hidden m variables ev).

(** Every observation of the three parents of Nota: each of them left
    out, seen as 0 or seen as 1. *)
Definition observe (k : string) (d : list PyDict.t) : list PyDict.t :=
  flat_map (fun ev => [ev; PyDict.set k 0%Z ev; PyDict.set k 1%Z ev]) d.

Definition observations : list PyDict.t :=
  observe "Asistencia" (observe "Dificultad" (observe "Inteligencia" [PyDict.empty])).






(** A computation of the engine frames the model when it leaves it as
    it found it. *)
Definition frames_model {A : Type} (c : M A) : Prop :=
  forall s, eng_model (snd (c s)) = eng_model s.

(** After the constructor, a history grows by error dialogs and by
    [Infer] calls on the model [m0] only. *)
Definition quiet_on (m0 : BayesianNetwork) (h : list Event) : Prop :=
  Forall (fun ev => ev = ShowError \/ exists e, ev = Infer m0 e) h.

(** ** The remaining operations of the program *)

(** The keys of a run of writes, each at its first occurrence. *)
Fixpoint first_occurrences (ks : list string) : list string :=
  match ks with
  | [] => []
  | k :: ks' => k :: drop k (first_occurrences ks')
  end.

(** [get_justifications()]: the list itself. *)
Definition get_justifications (js : JustificationSubsystem) : list string := js.

(** A run of [add_justification] calls, oldest first. *)
Definition add_justifications (new : list string) (js : JustificationSubsystem)
  : JustificationSubsystem :=
  fold_left (fun s j => add_justification j s) new js.








(** The database file behind [sqlite3.connect(db_name)]: a table is
    absent until it is created. *)
Record DbFile := mkDbFile {
  file_facts : option (list (string * Z));
  file_results : option (list Q)
}.

(** [CREATE TABLE IF NOT EXISTS]: an absent table is created empty, an
    existing one is left as it is. *)
Definition create_table {A : Type} (t : option (list A)) : option (list A) :=
  match t with
  | Some rows => Some rows
  | None => Some []
  end.

(** [create_tables()]. *)
Definition create_tables (f : DbFile) : DbFile :=
  {| file_facts := create_table (file_facts f);
     file_results := create_table (file_results f) |}.

Definition rows_of {A : Type} (t : option (list A)) : list A :=
  match t with
  | Some rows => rows
  | None => []
  end.

(** [Database(db_name)]: connect, then [create_tables()]. *)
Definition Database_init (f : DbFile) : Database :=
  {| facts_table := rows_of (file_facts (create_tables f));
     results_table := rows_of (file_results (create_tables f)) |}.

(** The file a database leaves behind. *)
Definition Database_file (db : Database) : DbFile :=
  {| file_facts := Some (facts_table db); file_results := Some (results_table db) |}.

(** [x in [0, 1]]. *)
Definition binary (z : Z) : Prop := z = 0%Z \/ z = 1%Z.

(** What a click that obtained a probability stores: the two entered
    values and the probability. *)
Definition Stored : Type := (Z * Z * Q)%type.

(** The two rows of the facts table for such a click; the fact base
    holds the same pairs after it. *)
Definition fact_rows (s : Stored) : list (string * Z) :=
  [("Inteligencia", fst (fst s)); ("Asistencia", snd (fst s))].

(** The justification text for such a click. *)
Definition justification_of (s : Stored) : string :=
  ("Resultado basado en hechos: " ++ PyDict.repr (fact_rows s))%string.

(** The label after a run of such clicks. *)
Definition label_after (stored : list Stored) (label : option Q) : option Q :=
  fold_left (fun _ s => Some (snd s)) stored label.

(** The fact base of the running program: empty, or the two entered
    values under their two keys, in that order. *)
Definition facts_shape (d : FactBase) : Prop :=
  d = []
  \/ exists i a, binary i /\ binary a
                 /\ d = [("Inteligencia", i); ("Asistencia", a)].

(** The state of the callback after its two [add_fact] calls and its
    [infer] call on the fact base. *)
Definition after_infer (i a : Z) (st : ExpertSystem) : ExpertSystem :=
  let facts := add_fact "Asistencia" a (add_fact "Inteligencia" i (fact_base st)) in
  log (Infer (knowledge_base st) facts) (with_facts (fun _ => facts) st).

(** The state of the callback once the probability [p] is stored. *)
Definition after_store (i a : Z) (p : Q) (st : ExpertSystem) : ExpertSystem :=
  let st3 := after_infer i a st in
  let st4 := with_justification
               ("Resultado basado en hechos: "
                  ++ PyDict.repr (get_facts (fact_base st3)))%string st3 in
  with_label p
    (with_database (insert_result p)
       (with_database (append_fact "Asistencia" a)
          (with_database (append_fact "Inteligencia" i) st4))).

(** Both entered values of a stored click are 0 or 1. *)
Definition binary_entries (s : Stored) : Prop :=
  binary (fst (fst s)) /\ binary (snd (fst s)).

(** Between [st] and [st'] the clicks [stored] obtained a probability:
    the tables grew by their rows, the label shows the last probability
    and the log grew by one justification each. *)
Definition stores (stored : list Stored) (st st' : ExpertSystem) : Prop :=
  facts_table (database st') = facts_table (database st) ++ flat_map fact_rows stored
  /\ results_table (database st') = results_table (database st) ++ map snd stored
  /\ Forall binary_entries stored
  /\ result_label st' = label_after stored (result_label st)
  /\ length (justification_subsystem st')
     = length (justification_subsystem st) + length stored.

(** A call of the running program: the error dialog, or [infer] on the
    model [m0] with the two entered values as evidence. *)
Definition program_event (m0 : BayesianNetwork) (ev : Event) : Prop :=
  ev = ShowError \/ exists s, binary_entries s /\ ev = Infer m0 (fact_rows s).

(** Between [st] and [st'] the fact base kept its shape, the log grew by
    the justifications of the clicks [stored], and the history by calls
    of the running program. *)
Definition logs (stored : list Stored) (st st' : ExpertSystem) : Prop :=
  facts_shape (fact_base st')
  /\ justification_subsystem st'
     = justification_subsystem st ++ map justification_of stored
  /\ exists h, history st' = history st ++ h
               /\ Forall (program_event (knowledge_base st)) h.

(** * Properties *)

(** ** Dictionaries and the fact base *)

Lemma get_set_same k v d : PyDict.get k (PyDict.set k v d) = Some v.
Proof.
  induction d as [|[k' v'] d IH]; simpl.
  - now rewrite String.eqb_refl.
  - destruct (String.eqb k' k) eqn:E; simpl.
    + now rewrite String.eqb_refl.
    + now rewrite E.
Qed.

Lemma get_set_other k k' v d :
  k <> k' -> PyDict.get k' (PyDict.set k v d) = PyDict.get k' d.
Proof.
  intros Hne. induction d as [|[a w] d IH]; simpl.
  - apply String.eqb_neq in Hne. now rewrite Hne.
  - destruct (String.eqb a k) eqn:E; simpl.
    + apply String.eqb_eq in E. subst a.
      apply String.eqb_neq in Hne. now rewrite Hne.
    + now rewrite IH.
Qed.

Lemma get_set k k' v d :
  PyDict.get k' (PyDict.set k v d)
  = if String.eqb k k' then Some v else PyDict.get k' d.
Proof.
  destruct (String.eqb k k') eqn:E.
  - apply String.eqb_eq in E. subst. apply get_set_same.
  - apply String.eqb_neq in E. now apply get_set_other.
Qed.

Lemma add_facts_get writes : forall facts k,
  PyDict.get k (add_facts writes facts)
  = match last_write k writes with
    | Some v => Some v
    | None => PyDict.get k facts
    end.
Proof.
  induction writes as [|[k' v] ws IH]; intros facts k; simpl.
  - reflexivity.
  - unfold add_facts in *. simpl. rewrite IH.
    destruct (last_write k ws); [reflexivity|].
    unfold add_fact. rewrite get_set.
    now destruct (String.eqb k' k).
Qed.

Lemma last_write_app k l1 l2 :
  last_write k (l1 ++ l2)
  = match last_write k l2 with
    | Some v => Some v
    | None => last_write k l1
    end.
Proof.
  induction l1 as [|[k' v] l1 IH]; simpl.
  - now destruct (last_write k l2).
  - rewrite IH. now destruct (last_write k l2).
Qed.

Lemma last_write_none k ws :
  (forall v, ~ In (k, v) ws) -> last_write k ws = None.
Proof.
  induction ws as [|[k' v] ws IH]; intros H; simpl; [reflexivity|].
  rewrite IH.
  - destruct (String.eqb k' k) eqn:E; [|reflexivity].
    apply String.eqb_eq in E. subst. exfalso. apply (H v). now left.
  - intros v' Hin. apply (H v'). now right.
Qed.

Lemma get_set_some k k' v d :
  PyDict.get k d <> None -> PyDict.get k (PyDict.set k' v d) <> None.
Proof.
  intros H. rewrite get_set. now destruct (String.eqb k' k).
Qed.

(** ** The callback, case by case *)

Lemma handle_fact_base e st : fact_base (snd (handle e st)) = fact_base st.
Proof. unfold handle. now destruct (caught e). Qed.

Lemma store_fact_inr k v st st' :
  store_fact k v st = inr st' -> st' = with_database (append_fact k v) st.
Proof.
  unfold store_fact, insert_fact. destruct (fits_int64 v); [|discriminate].
  intros H. now inversion H.
Qed.

Lemma run_inference_fact_base int s1 s2 st :
  fact_base (snd (run_inference int s1 s2 st)) = fact_base st
  \/ exists i a,
      fact_base (snd (run_inference int s1 s2 st))
      = add_fact "Asistencia" a (add_fact "Inteligencia" i (fact_base st)).
Proof.
  unfold run_inference.
  destruct (int s1) as [i|]; [|left; apply handle_fact_base].
  destruct (int s2) as [a|]; [|left; apply handle_fact_base].
  destruct (not_in_01 i || not_in_01 a); [left; apply handle_fact_base|].
  right. exists i, a.
  destruct (fst (infer _ _)) as [e|f].
  - now rewrite handle_fact_base.
  - destruct (nth_error (values f) 1); [|now rewrite handle_fact_base].
    destruct (store_fact "Inteligencia" i _) as [e1|st5] eqn:E5;
      [now rewrite handle_fact_base|].
    apply store_fact_inr in E5. subst st5.
    destruct (store_fact "Asistencia" a _) as [e2|st6] eqn:E6;
      [now rewrite handle_fact_base|].
    apply store_fact_inr in E6. subst st6. reflexivity.
Qed.

Lemma run_inference_invalid int s1 s2 st :
  int s1 = None
  \/ int s2 = None
  \/ (exists i, int s1 = Some i /\ i <> 0%Z /\ i <> 1%Z)
  \/ (exists a, int s2 = Some a /\ a <> 0%Z /\ a <> 1%Z) ->
  run_inference int s1 s2 st = (None, showerror st).
Proof.
  assert (Hout : forall z, z <> 0%Z -> z <> 1%Z -> not_in_01 z = true).
  { intros z H0 H1. unfold not_in_01.
    apply Z.eqb_neq in H0. apply Z.eqb_neq in H1. now rewrite H0, H1. }
  unfold run_inference.
  intros [H | [H | [[i [H [H0 H1]]] | [a [H [H0 H1]]]]]].
  - now rewrite H.
  - rewrite H. now destruct (int s1).
  - rewrite H. destruct (int s2); [|reflexivity].
    now rewrite (Hout i H0 H1).
  - rewrite H. destruct (int s1) as [i|]; [|reflexivity].
    rewrite (Hout a H0 H1). now rewrite orb_true_r.
Qed.

(** C9. The fact base is a last-write-wins map: after any run of
    [add_fact] calls on any fact base, [get_facts()] gives a key the
    value of the most recent [add_fact] for it (the call [(k, v)] with no
    later call for [k]); and a click does not clear the fact base: the key
    is still there after [run_inference]. *)
Theorem FactBase_last_write_wins :
  forall (facts : FactBase) (before after : list (string * Z)) (k : string) (v : Z),
    (forall v', ~ In (k, v') after) ->
    PyDict.get k (get_facts (add_facts (before ++ (k, v) :: after) facts)) = Some v
    /\ forall int s1 s2 st,
        fact_base st = add_facts (before ++ (k, v) :: after) facts ->
        PyDict.get k (get_facts (fact_base (snd (run_inference int s1 s2 st))))
        <> None.
Proof.
  intros facts before after k v Hlast.
  assert (Hget : PyDict.get k (add_facts (before ++ (k, v) :: after) facts) = Some v).
  { rewrite add_facts_get, last_write_app. simpl.
    rewrite (last_write_none k after Hlast).
    now rewrite String.eqb_refl. }
  split; [exact Hget|].
  intros int s1 s2 st Hst. unfold get_facts.
  destruct (run_inference_fact_base int s1 s2 st) as [E | [i [a E]]];
    rewrite E, Hst.
  - now rewrite Hget.
  - unfold add_fact. apply get_set_some, get_set_some. now rewrite Hget.
Qed.

Lemma FactBase_last_write_wins_witness :
  PyDict.get "Inteligencia"
    (get_facts (add_facts ([("Inteligencia", 0%Z)]
                             ++ ("Inteligencia", 1%Z) :: [("Asistencia", 0%Z)])
                          FactBase_init)) = Some 1%Z.
Proof.
  refine (proj1 (FactBase_last_write_wins FactBase_init
                   [("Inteligencia", 0%Z)] [("Asistencia", 0%Z)]
                   "Inteligencia" 1%Z _)).
  intros v' [H | []]. discriminate H.
Defined.

(** C10. [run_inference] is atomic on invalid input: when an entry does
    not parse as an integer or its value is outside {0, 1}, the fact
    base, the justification list and both database tables are what they
    were; only the error dialog is shown. *)
Theorem run_inference_atomic_on_invalid_input :
  forall int s1 s2 st,
    int s1 = None
    \/ int s2 = None
    \/ (exists i, int s1 = Some i /\ i <> 0%Z /\ i <> 1%Z)
    \/ (exists a, int s2 = Some a /\ a <> 0%Z /\ a <> 1%Z) ->
    let st' := snd (run_inference int s1 s2 st) in
    fact_base st' = fact_base st
    /\ justification_subsystem st' = justification_subsystem st
    /\ facts_table (database st') = facts_table (database st)
    /\ results_table (database st') = results_table (database st)
    /\ history st' = history st ++ [ShowError].
Proof.
  intros int s1 s2 st H. simpl.
  rewrite (run_inference_invalid int s1 s2 st H). simpl. repeat split.
Qed.

Lemma run_inference_atomic_on_invalid_input_witness :
  let st := mkExpertSystem KnowledgeBase_model FactBase_init [] (mkDatabase [] []) None [] in
  let st' := snd (run_inference int_ascii "si" "1" st) in
  fact_base st' = fact_base st
  /\ justification_subsystem st' = justification_subsystem st
  /\ facts_table (database st') = facts_table (database st)
  /\ results_table (database st') = results_table (database st)
  /\ history st' = history st ++ [ShowError].
Proof.
  intros st.
  apply (run_inference_atomic_on_invalid_input int_ascii "si" "1" st).
  left. reflexivity.
Defined.

(** C5. Evidence outside a variable's domain is rejected before any
    inference: when both entries parse and one of the values is not in
    {0, 1}, the callback only shows the error dialog. No [Infer] call is
    made, the value is not stored in the fact base under any form, and no
    posterior reaches the results table or the label. *)
Theorem out_of_domain_evidence_rejected :
  forall int s1 s2 st i a,
    int s1 = Some i -> int s2 = Some a ->
    (i <> 0%Z /\ i <> 1%Z) \/ (a <> 0%Z /\ a <> 1%Z) ->
    let st' := snd (run_inference int s1 s2 st) in
    history st' = history st ++ [ShowError]
    /\ fact_base st' = fact_base st
    /\ results_table (database st') = results_table (database st)
    /\ result_label st' = result_label st.
Proof.
  intros int s1 s2 st i a Hi Ha Hout. simpl.
  rewrite (run_inference_invalid int s1 s2 st).
  - simpl. repeat split.
  - destruct Hout as [[H0 H1] | [H0 H1]].
    + right; right; left. now exists i.
    + right; right; right. now exists a.
Qed.

Lemma out_of_domain_evidence_rejected_witness :
  let st := mkExpertSystem KnowledgeBase_model FactBase_init [] (mkDatabase [] []) None [] in
  let st' := snd (run_inference int_ascii "2" "1" st) in
  history st' = history st ++ [ShowError]
  /\ fact_base st' = fact_base st
  /\ results_table (database st') = results_table (database st)
  /\ result_label st' = result_label st.
Proof.
  intros st.
  apply (out_of_domain_evidence_rejected int_ascii "2" "1" st 2%Z 1%Z);
    [reflexivity | reflexivity | left; split; discriminate].
Defined.

(** ** The engine never writes the model *)

Lemma frames_ret A (a : A) : frames_model (ret a).
Proof. intros s. reflexivity. Qed.

Lemma frames_fail A e : frames_model (@fail A e).
Proof. intros s. reflexivity. Qed.

Lemma frames_lift A (r : result A) : frames_model (lift r).
Proof. intros s. reflexivity. Qed.

Lemma frames_read_model : frames_model read_model.
Proof. intros s. reflexivity. Qed.

Lemma frames_read_factors : frames_model read_factors.
Proof. intros s. reflexivity. Qed.

Lemma frames_write_factors fs : frames_model (write_factors fs).
Proof. intros s. reflexivity. Qed.

Lemma frames_mbind A B (c : M A) (k : A -> M B) :
  frames_model c -> (forall a, frames_model (k a)) -> frames_model (mbind c k).
Proof.
  intros Hc Hk s. unfold mbind.
  specialize (Hc s). destruct (c s) as [[e|a] s']; simpl in *.
  - exact Hc.
  - now rewrite Hk.
Qed.

Lemma frames_for_each vs body :
  (forall v, frames_model (body v)) -> frames_model (for_each vs body).
Proof.
  intros Hb. induction vs as [|v vs IH]; simpl.
  - apply frames_ret.
  - apply frames_mbind; [apply Hb | intros _; exact IH].
Qed.

Create HintDb frames.

#[local] Hint Resolve frames_ret frames_fail frames_lift frames_read_model
  frames_read_factors frames_write_factors : frames.

Lemma frames_query_with_order variables ev order :
  frames_model (query_with_order variables ev order).
Proof.
  unfold query_with_order.
  apply frames_mbind; [auto with frames|]. intros m.
  destruct variables as [|q qs]; [auto with frames|].
  destruct (negb (evidence_ok m (q :: qs) ev)); [auto with frames|].
  repeat (first [ apply frames_for_each; intros
                | apply frames_mbind; [|intros]
                | solve [auto with frames] ]).
Qed.

Lemma frames_query variables ev : frames_model (query variables ev).
Proof.
  unfold query. apply frames_mbind; [auto with frames|].
  intros m. apply frames_query_with_order.
Qed.

Lemma infer_model ev m : snd (infer ev m) = m.
Proof. unfold infer. simpl. now rewrite frames_query. Qed.

(** C8. [infer] is read-only on the model: after the call the model has
    the variables, the edges and the conditional factors it had before,
    whatever the evidence; the engine writes its working set only. *)
Theorem infer_read_only :
  forall (ev : PyDict.t) (m : BayesianNetwork),
    let m' := snd (infer ev m) in
    nodes m' = nodes m /\ edges m' = edges m /\ cpds m' = cpds m.
Proof.
  intros ev m. simpl. now rewrite frames_query.
Qed.

(** ** Validation comes first *)

Lemma KnowledgeBase_model_valid : check_model KnowledgeBase_model = true.
Proof. vm_compute. reflexivity. Qed.

Lemma define_cpds_inr model h m' h' :
  define_cpds model h = (inr m', h') ->
  check_model m' = true /\ h' = h ++ [CheckModel m' true].
Proof.
  unfold define_cpds, call_check_model.
  destruct (add_cpds _ model) as [[e|] m1]; [discriminate|].
  cbn [fst snd].
  destruct (check_model m1) eqn:E; [|discriminate].
  intros H. injection H as H1 H2. subst. now split.
Qed.

Lemma KnowledgeBase_init_ok :
  KnowledgeBase_init []
  = (inr KnowledgeBase_model, [CheckModel KnowledgeBase_model true]).
Proof.
  unfold KnowledgeBase_init, define_cpds, call_check_model.
  change (add_cpds [cpd_inteligencia; cpd_dificultad; cpd_asistencia; cpd_nota]
            (BayesianNetwork_init [("Inteligencia", "Nota"); ("Dificultad", "Nota");
                                   ("Asistencia", "Nota")]))
    with (None (A:=PyExn), KnowledgeBase_model).
  cbn [fst snd]. rewrite KnowledgeBase_model_valid. reflexivity.
Qed.

Lemma ExpertSystem_init_ok db :
  ExpertSystem_init db
  = inr {| knowledge_base := KnowledgeBase_model;
           fact_base := FactBase_init;
           justification_subsystem := [];
           database := db;
           result_label := None;
           history := [CheckModel KnowledgeBase_model true] |}.
Proof. unfold ExpertSystem_init. now rewrite KnowledgeBase_init_ok. Qed.

Lemma handle_step m0 e st :
  exists h, history (snd (handle e st)) = history st ++ h
            /\ quiet_on m0 h
            /\ knowledge_base (snd (handle e st)) = knowledge_base st.
Proof.
  unfold handle. destruct (caught e); simpl.
  - exists [ShowError]. repeat split. constructor; [now left | constructor].
  - exists []. rewrite app_nil_r. repeat split. constructor.
Qed.

Lemma run_inference_step int s1 s2 st :
  exists h,
    history (snd (run_inference int s1 s2 st)) = history st ++ h
    /\ quiet_on (knowledge_base st) h
    /\ knowledge_base (snd (run_inference int s1 s2 st)) = knowledge_base st.
Proof.
  unfold run_inference.
  destruct (int s1) as [i|]; [|apply handle_step].
  destruct (int s2) as [a|]; [|apply handle_step].
  destruct (not_in_01 i || not_in_01 a); [apply handle_step|].
  set (st2 := with_facts _ (with_facts _ st)).
  set (st3 := log _ _).
  assert (Hkb : knowledge_base st3 = knowledge_base st).
  { unfold st3. simpl. apply infer_model. }
  assert (Hh : history st3
               = history st ++ [Infer (knowledge_base st) (get_facts (fact_base st2))]).
  { reflexivity. }
  assert (Hq : quiet_on (knowledge_base st)
                 [Infer (knowledge_base st) (get_facts (fact_base st2))]).
  { constructor; [right; eexists; reflexivity | constructor]. }
  assert (Hhandle : forall e st',
             history st' = history st3 ->
             knowledge_base st' = knowledge_base st3 ->
             exists h,
               history (snd (handle e st')) = history st ++ h
               /\ quiet_on (knowledge_base st) h
               /\ knowledge_base (snd (handle e st')) = knowledge_base st).
  { intros e st' E1 E2.
    destruct (handle_step (knowledge_base st) e st') as [h [H1 [H2 H3]]].
    exists ([Infer (knowledge_base st) (get_facts (fact_base st2))] ++ h).
    rewrite H1, E1, Hh, <- app_assoc. split; [reflexivity|].
    split; [apply Forall_app; split; assumption | congruence]. }
  destruct (fst (infer _ _)) as [e|f]; [now apply Hhandle|].
  destruct (nth_error (values f) 1) as [p|]; [|now apply Hhandle].
  destruct (store_fact "Inteligencia" i _) as [e1|st5] eqn:E5; [now apply Hhandle|].
  apply store_fact_inr in E5. subst st5.
  destruct (store_fact "Asistencia" a _) as [e2|st6] eqn:E6; [now apply Hhandle|].
  apply store_fact_inr in E6. subst st6.
  exists [Infer (knowledge_base st) (get_facts (fact_base st2))].
  simpl. split; [reflexivity|]. split; [exact Hq | apply infer_model].
Qed.

Lemma mainloop_steps int clicks : forall st,
  exists h,
    history (mainloop int clicks st) = history st ++ h
    /\ quiet_on (knowledge_base st) h
    /\ knowledge_base (mainloop int clicks st) = knowledge_base st.
Proof.
  induction clicks as [|[s1 s2] clicks IH]; intros st; simpl.
  - exists []. rewrite app_nil_r. repeat split. constructor.
  - destruct (run_inference_step int s1 s2 st) as [h1 [H1 [H2 H3]]].
    destruct (IH (snd (run_inference int s1 s2 st))) as [h2 [K1 [K2 K3]]].
    exists (h1 ++ h2). unfold mainloop in *. simpl.
    rewrite K1, H1, <- app_assoc. split; [reflexivity|].
    rewrite H3 in K2, K3.
    split; [apply Forall_app; split; assumption | exact K3].
Qed.

(** C6. The constructor of the knowledge base hands out a model only
    after [check_model] has answered [True] for that very model, and the
    call is the last thing it did; a model that does not validate makes
    the constructor raise, so that no engine is ever built on it. In
    every execution of the program (whatever the database file holds and
    whatever is clicked) the constructor succeeds, on the model of the
    four CPDs; the history, which the constructor's own call opens,
    starts with that successful [check_model]; all the [Infer] entries
    that follow carry the validated model, which is the model the
    program still holds at the end, and the model is not validated
    again. *)
Theorem validation_precedes_inference :
  (forall model h m' h',
      define_cpds model h = (inr m', h') ->
      check_model m' = true /\ h' = h ++ [CheckModel m' true])
  /\ (forall model h,
        check_model (snd (add_cpds [cpd_inteligencia; cpd_dificultad;
                                    cpd_asistencia; cpd_nota] model)) = false ->
        exists e, fst (define_cpds model h) = inl e)
  /\ forall int (db : Database) (clicks : list (string * string)),
      exists st rest,
        main int db clicks = inr st
        /\ KnowledgeBase_init [] = (inr (knowledge_base st), [CheckModel (knowledge_base st) true])
        /\ knowledge_base st = KnowledgeBase_model
        /\ history st = snd (KnowledgeBase_init []) ++ rest
        /\ history st = CheckModel KnowledgeBase_model true :: rest
        /\ check_model KnowledgeBase_model = true
        /\ (forall m ev, In (Infer m ev) rest -> m = KnowledgeBase_model)
        /\ (forall m ok, ~ In (CheckModel m ok) rest).
Proof.
  split; [exact define_cpds_inr|].
  split.
  { intros model h. unfold define_cpds, call_check_model.
    destruct (add_cpds _ model) as [[e|] m1]; cbn [fst snd].
    - intros _. now exists e.
    - intros ->. now exists AssertionError. }
  intros int db clicks.
  unfold main. rewrite ExpertSystem_init_ok.
  match goal with |- context [mainloop int clicks ?s] => set (st0 := s) end.
  destruct (mainloop_steps int clicks st0) as [h [H1 [H2 H3]]].
  exists (mainloop int clicks st0), h.
  split; [reflexivity|].
  split; [rewrite H3; exact KnowledgeBase_init_ok|].
  split; [exact H3|].
  split; [rewrite KnowledgeBase_init_ok; exact H1|].
  split; [exact H1|].
  split; [apply KnowledgeBase_model_valid|].
  unfold quiet_on in H2. rewrite Forall_forall in H2.
  split.
  - intros m ev Hin. destruct (H2 _ Hin) as [E | [e E]].
    + discriminate E.
    + now inversion E.
  - intros m ok Hin. destruct (H2 _ Hin) as [E | [e E]]; discriminate E.
Qed.

Lemma validation_precedes_inference_witness :
  check_model KnowledgeBase_model = true
  /\ [CheckModel KnowledgeBase_model true] = [] ++ [CheckModel KnowledgeBase_model true].
Proof.
  refine (proj1 validation_precedes_inference
            (BayesianNetwork_init [("Inteligencia", "Nota"); ("Dificultad", "Nota");
                                   ("Asistencia", "Nota")])
            [] KnowledgeBase_model [CheckModel KnowledgeBase_model true] _).
  vm_compute. reflexivity.
Defined.

(** ** Knowledge acquisition *)

Lemma get_cpd_attach_cpd v c m :
  get_cpd v (attach_cpd c m)
  = if String.eqb (variable c) v then Some c else get_cpd v m.
Proof.
  unfold get_cpd, attach_cpd. simpl.
  induction (cpds m) as [|c0 cs IH]; simpl.
  - reflexivity.
  - destruct (String.eqb (variable c0) (variable c)) eqn:E0; simpl.
    + apply String.eqb_eq in E0. rewrite E0.
      now destruct (String.eqb (variable c) v).
    + rewrite IH.
      destruct (String.eqb (variable c0) v) eqn:E1; [|reflexivity].
      destruct (String.eqb (variable c) v) eqn:E2; [|reflexivity].
      apply String.eqb_eq in E1, E2. apply String.eqb_neq in E0. congruence.
Qed.

Lemma get_cpd_attach_all v batch : forall m,
  get_cpd v (attach_all batch m)
  = match last_cpd v batch with
    | Some c => Some c
    | None => get_cpd v m
    end.
Proof.
  induction batch as [|c cs IH]; intros m; simpl.
  - reflexivity.
  - unfold attach_all in *. simpl. rewrite IH.
    destruct (last_cpd v cs); [reflexivity|].
    rewrite get_cpd_attach_cpd. now destruct (String.eqb (variable c) v).
Qed.

Lemma attach_all_graph batch : forall m,
  nodes (attach_all batch m) = nodes m /\ edges (attach_all batch m) = edges m.
Proof.
  induction batch as [|c cs IH]; intros m; simpl; [now split|].
  unfold attach_all in *. simpl. destruct (IH (attach_cpd c m)) as [H1 H2].
  now rewrite H1, H2.
Qed.

Lemma attached_same_nodes m m' batch :
  nodes m = nodes m' -> attached m batch = attached m' batch.
Proof.
  intros E. induction batch as [|c cs IH]; simpl; [reflexivity|].
  unfold on_nodes. now rewrite E, IH.
Qed.

Lemma attached_all m batch :
  forallb (on_nodes m) batch = true <-> attached m batch = batch.
Proof.
  induction batch as [|c cs IH]; simpl; [tauto|].
  destruct (on_nodes m c); simpl.
  - rewrite IH. split; [now intros -> | intros H; injection H as H; exact H].
  - split; discriminate.
Qed.

(** [add_cpds] attaches the CPDs before the first one that is not on the
    variables of the model, and raises when there is such a one. *)
Lemma add_cpds_eq batch : forall m,
  add_cpds batch m
  = (if forallb (on_nodes m) batch then None else Some ValueError,
     attach_all (attached m batch) m).
Proof.
  induction batch as [|c cs IH]; intros m; simpl; [reflexivity|].
  destruct (on_nodes m c) eqn:E; simpl; [|reflexivity].
  rewrite IH.
  now rewrite (attached_same_nodes (attach_cpd c m) m cs eq_refl).
Qed.

(** One [add_cpds] call per CPD does what one call on the whole batch
    does. *)
Lemma add_each_eq batch : forall m, add_each batch m = add_cpds batch m.
Proof.
  induction batch as [|c cs IH]; intros m; simpl; [reflexivity|].
  destruct (on_nodes m c); [apply IH | reflexivity].
Qed.

Lemma update_knowledge_eq batch m :
  update_knowledge batch m
  = if forallb (on_nodes m) batch
    then (if check_model (attach_all batch m) then None else Some AssertionError,
          attach_all batch m)
    else (Some ValueError, attach_all (attached m batch) m).
Proof.
  unfold update_knowledge. rewrite add_each_eq, add_cpds_eq.
  destruct (forallb (on_nodes m) batch) eqn:E; [|reflexivity].
  apply attached_all in E. rewrite E.
  now destruct (check_model (attach_all batch m)).
Qed.

Lemma update_knowledge_model batch m :
  snd (update_knowledge batch m) = attach_all (attached m batch) m.
Proof.
  rewrite update_knowledge_eq.
  destruct (forallb (on_nodes m) batch) eqn:E; [|reflexivity].
  apply attached_all in E. now rewrite E.
Qed.

(** C2, as the code has it. [update_knowledge] rejects every batch after
    which the model does not validate, but it restores nothing: whether
    the call raises or not, the model afterwards holds what the loop
    attached before it ended, for every variable the last CPD attached
    for it, and the prior CPD for a variable that none of the attached
    CPDs names; variables and edges are as before. The loop ends early,
    with [ValueError], at the first CPD that is not on variables of the
    model, and the CPDs after that one are never attached; the call
    returns normally exactly when the whole batch was attached and the
    model then validates. *)
Theorem update_knowledge_keeps_what_it_attached :
  forall (batch : list TabularCPD) (m : BayesianNetwork),
    let r := update_knowledge batch m in
    (check_model (snd r) = false -> fst r <> None)
    /\ (attached m batch <> batch -> fst r = Some ValueError)
    /\ (fst r = None <-> attached m batch = batch /\ check_model (snd r) = true)
    /\ nodes (snd r) = nodes m
    /\ edges (snd r) = edges m
    /\ (forall v, get_cpd v (snd r)
                  = match last_cpd v (attached m batch) with
                    | Some c => Some c
                    | None => get_cpd v m
                    end).
Proof.
  intros batch m. cbv zeta.
  assert (Hr : fst (update_knowledge batch m)
               = if forallb (on_nodes m) batch
                 then (if check_model (snd (update_knowledge batch m))
                       then None else Some AssertionError)
                 else Some ValueError).
  { rewrite update_knowledge_eq.
    destruct (forallb (on_nodes m) batch); reflexivity. }
  rewrite Hr. rewrite update_knowledge_model.
  destruct (attach_all_graph (attached m batch) m) as [Hn He].
  pose proof (attached_all m batch) as Ha.
  split; [|split; [|split; [|split; [exact Hn|split; [exact He|]]]]].
  - intros ->. destruct (forallb (on_nodes m) batch); discriminate.
  - intros E. destruct (forallb (on_nodes m) batch); [|reflexivity].
    contradiction E. now apply Ha.
  - destruct (forallb (on_nodes m) batch).
    + assert (E : attached m batch = batch) by now apply Ha.
      destruct (check_model (attach_all (attached m batch) m)).
      * split; [now split | reflexivity].
      * split; [discriminate | now intros [_ H]].
    + split; [discriminate|]. intros [E _]. apply Ha in E. discriminate.
  - intros v. apply get_cpd_attach_all.
Qed.

Lemma update_knowledge_keeps_what_it_attached_witness :
  fst (update_knowledge mixed_batch KnowledgeBase_model) <> None.
Proof.
  refine (proj1 (update_knowledge_keeps_what_it_attached
                   mixed_batch KnowledgeBase_model) _).
  vm_compute. reflexivity.
Defined.

(** C2, as stated, fails: on the validated model of the knowledge base,
    the batch [mixed_batch] (one invalid CPD between two valid ones) is
    rejected, and afterwards the model holds the CPDs of the batch, not
    the ones it held before the call. *)
Lemma update_knowledge_keeps_rejected_batch :
  check_model KnowledgeBase_model = true
  /\ is_valid_cpd cpd_dificultad_even = true
  /\ is_valid_cpd cpd_inteligencia_bad = false
  /\ is_valid_cpd cpd_asistencia_high = true
  /\ fst (update_knowledge mixed_batch KnowledgeBase_model) = Some AssertionError
  /\ cpds (snd (update_knowledge mixed_batch KnowledgeBase_model))
     = [cpd_inteligencia_bad; cpd_dificultad_even; cpd_asistencia_high; cpd_nota]
  /\ cpds (snd (update_knowledge mixed_batch KnowledgeBase_model))
     <> cpds KnowledgeBase_model.
Proof.
  repeat split; try (vm_compute; reflexivity).
  vm_compute. intros H. discriminate H.
Qed.

(** ** Normalization of the conditional tables *)

Lemma column_index_bound pa cards :
  Forall2 lt pa cards ->
  forall i k, i < k ->
    fold_left (fun i p => i * fst p + snd p) (combine cards pa) i
    < k * fold_right Nat.mul 1 cards.
Proof.
  induction 1 as [|a c pa cards Hac _ IH]; intros i k Hik; simpl.
  - lia.
  - replace (k * (c * fold_right Nat.mul 1 cards))
      with ((k * c) * fold_right Nat.mul 1 cards) by lia.
    apply IH. nia.
Qed.

Lemma map_nth_seq {A B : Type} (f : A -> B) (d : A) (l : list A) :
  map (fun x => f (nth x l d)) (seq 0 (length l)) = map f l.
Proof.
  induction l as [|a l IH]; simpl; [reflexivity|].
  f_equal. rewrite <- seq_shift, map_map. exact IH.
Qed.

Lemma cpd_ok_normalized m c : cpd_ok m c = true -> normalized c.
Proof.
  unfold cpd_ok. intros H.
  repeat (apply andb_prop in H as [H ?]).
  intros pa Hpa.
  match goal with Hv : is_valid_cpd c = true |- _ =>
    unfold is_valid_cpd in Hv; rewrite forallb_forall in Hv;
    specialize (Hv (column_index (evidence_card c) pa)) end.
  match goal with Hl : (length (cpd_values c) =? variable_card c) = true |- _ =>
    apply Nat.eqb_eq in Hl; rewrite <- Hl end.
  unfold cpd_entry.
  rewrite (map_nth_seq (fun row => nth (column_index (evidence_card c) pa) row 0%Q)).
  apply Qle_bool_iff.
  match goal with Hv : _ -> close_to _ _ = true |- _ => apply Hv end.
  apply in_seq. split; [lia|]. simpl.
  unfold column_index, columns.
  pose proof (column_index_bound pa (evidence_card c) Hpa 0 1). lia.
Qed.

(** C3. Every conditional factor of a validated model is normalized: for
    every assignment of the parents within their domains, the entries
    over the child's states sum to 1 within [1e-6]. The model of the
    knowledge base validates, so its four CPDs are normalized. *)
Theorem validated_cpds_normalized :
  (forall (m : BayesianNetwork) (c : TabularCPD),
      check_model m = true -> In c (cpds m) -> normalized c)
  /\ check_model KnowledgeBase_model = true
  /\ cpds KnowledgeBase_model
     = [cpd_inteligencia; cpd_dificultad; cpd_asistencia; cpd_nota]
  /\ normalized cpd_inteligencia /\ normalized cpd_dificultad
  /\ normalized cpd_asistencia /\ normalized cpd_nota.
Proof.
  assert (G : forall m c, check_model m = true -> In c (cpds m) -> normalized c).
  { intros m c Hm Hc. unfold check_model in Hm.
    apply andb_prop in Hm as [_ Hm].
    rewrite forallb_forall in Hm.
    apply (cpd_ok_normalized m), Hm, Hc. }
  split; [exact G|].
  split; [apply KnowledgeBase_model_valid|].
  split; [reflexivity|].
  repeat split; apply (G KnowledgeBase_model); try apply KnowledgeBase_model_valid;
    simpl; tauto.
Qed.

Lemma validated_cpds_normalized_witness :
  (Qabs (Qsum (map (fun x => cpd_entry cpd_nota x [1; 0; 1]%nat) (seq 0 2)) - 1)
     <= epsilon)%Q.
Proof.
  apply (proj1 validated_cpds_normalized KnowledgeBase_model cpd_nota).
  - vm_compute. reflexivity.
  - simpl. tauto.
  - repeat constructor.
Defined.

(** ** The reference query *)

(** C1. On the model of the knowledge base, [infer] with evidence
    [{Inteligencia: 1, Asistencia: 1}] eliminates Dificultad and returns
    a distribution over Nota whose entry for [Nota = 1] is
    [0.6 * 0.4 + 0.4 * 0.7 = 0.52], within [1e-6]. *)
Theorem infer_good_grade_given_intelligence_and_attendance :
  let ev := [("Inteligencia", 1%Z); ("Asistencia", 1%Z)] in
  elimination_order KnowledgeBase_model ["Nota"] ev = ["Dificultad"]
  /\ exists f p,
      fst (infer ev KnowledgeBase_model) = inr f
      /\ scope f = ["Nota"]
      /\ nth_error (values f) 1 = Some p
      /\ (p == 0.6 * 0.4 + 0.4 * 0.7)%Q
      /\ (0.6 * 0.4 + 0.4 * 0.7 == 0.52)%Q
      /\ (Qabs (p - 0.52) <= epsilon)%Q.
Proof.
  split; [vm_compute; reflexivity|].
  eexists. eexists.
  split; [vm_compute; reflexivity|].
  split; [reflexivity|].
  split; [reflexivity|].
  split; [vm_compute; reflexivity|].
  split; [vm_compute; reflexivity|].
  vm_compute. discriminate.
Qed.

(** ** Rational sums *)

Lemma Qsum_app l1 l2 : (Qsum (l1 ++ l2) == Qsum l1 + Qsum l2)%Q.
Proof.
  induction l1 as [|a l1 IH]; simpl.
  - ring.
  - rewrite IH. ring.
Qed.

Lemma Qsum_map_ext {A : Type} (f g : A -> Q) (l : list A) :
  (forall x, In x l -> (f x == g x)%Q) ->
  (Qsum (map f l) == Qsum (map g l))%Q.
Proof.
  induction l as [|a l IH]; intros H; simpl.
  - reflexivity.
  - rewrite (H a (or_introl eq_refl)), IH; [reflexivity|].
    intros x Hx. apply H. now right.
Qed.

Lemma Qsum_map_plus {A : Type} (f g : A -> Q) (l : list A) :
  (Qsum (map (fun x => f x + g x) l) == Qsum (map f l) + Qsum (map g l))%Q.
Proof.
  induction l as [|a l IH]; simpl.
  - ring.
  - rewrite IH. ring.
Qed.

Lemma Qsum_map_scale {A : Type} (c : Q) (f : A -> Q) (l : list A) :
  (Qsum (map (fun x => c * f x) l) == c * Qsum (map f l))%Q.
Proof.
  induction l as [|a l IH]; simpl.
  - ring.
  - rewrite IH. ring.
Qed.

Lemma Qsum_map_zero {A : Type} (l : list A) :
  (Qsum (map (fun _ => 0) l) == 0)%Q.
Proof.
  induction l as [|a l IH]; simpl.
  - reflexivity.
  - rewrite IH. ring.
Qed.

Lemma Qsum_swap {A B : Type} (h : A -> B -> Q) (xs : list A) (ys : list B) :
  (Qsum (map (fun x => Qsum (map (fun y => h x y) ys)) xs)
   == Qsum (map (fun y => Qsum (map (fun x => h x y) xs)) ys))%Q.
Proof.
  induction xs as [|a xs IH]; simpl.
  - now rewrite Qsum_map_zero.
  - rewrite IH, <- Qsum_map_plus. reflexivity.
Qed.


Lemma Qsum_flat_map {A : Type} (f : A -> list Q) (l : list A) :
  (Qsum (flat_map f l) == Qsum (map (fun x => Qsum (f x)) l))%Q.
Proof.
  induction l as [|a l IH]; simpl.
  - reflexivity.
  - now rewrite Qsum_app, IH.
Qed.


(** ** Scopes *)

Lemma mem_In v vs : mem v vs = true <-> In v vs.
Proof.
  unfold mem. rewrite existsb_exists. split.
  - intros [w [Hw E]]. apply String.eqb_eq in E. now subst.
  - intros H. exists v. split; [exact H | apply String.eqb_refl].
Qed.

Lemma mem_false v vs : mem v vs = false <-> ~ In v vs.
Proof.
  rewrite <- mem_In. destruct (mem v vs); split; congruence.
Qed.

Lemma In_drop w v vs : In w (drop v vs) <-> In w vs /\ w <> v.
Proof.
  unfold drop. rewrite filter_In, negb_true_iff, String.eqb_neq. tauto.
Qed.

Lemma In_union w a b : In w (union a b) <-> In w a \/ In w b.
Proof.
  unfold union. rewrite in_app_iff, filter_In, negb_true_iff, mem_false.
  destruct (in_dec string_dec w a); tauto.
Qed.

Lemma NoDup_drop v vs : NoDup vs -> NoDup (drop v vs).
Proof. apply NoDup_filter. Qed.

Lemma NoDup_union a b : NoDup a -> NoDup b -> NoDup (union a b).
Proof.
  intros Ha Hb. unfold union. apply NoDup_app; [exact Ha | now apply NoDup_filter |].
  intros x Hx Hf. apply filter_In in Hf as [_ Hf].
  apply negb_true_iff, mem_false in Hf. contradiction.
Qed.

Lemma nodupb_NoDup vs : nodupb vs = true -> NoDup vs.
Proof.
  induction vs as [|v vs IH]; simpl; intros H; [constructor|].
  apply andb_prop in H as [H1 H2].
  constructor; [now apply mem_false, negb_true_iff | auto].
Qed.

Lemma upd_same e v x : upd e v x v = x.
Proof. unfold upd. now rewrite String.eqb_refl. Qed.

Lemma upd_other e v x w : w <> v -> upd e v x w = e w.
Proof. intros H. unfold upd. apply String.eqb_neq in H. now rewrite H. Qed.

(** ** Dense arrays and assignments *)

Section FactorTheory.

Variable card : string -> nat.

Lemma in_domain_upd e v x : in_domain card e -> x < card v -> in_domain card (upd e v x).
Proof.
  intros He Hx w. unfold upd. destruct (String.eqb w v) eqn:E.
  - apply String.eqb_eq in E. now subst.
  - apply He.
Qed.

Lemma index_from vs e : forall i,
  fold_left (fun i v => i * card v + e v) vs i = i * size card vs + index card vs e.
Proof.
  unfold index.
  induction vs as [|v vs IH]; intros i; simpl.
  - lia.
  - rewrite IH, (IH (e v)). lia.
Qed.

Lemma index_cons v vs e :
  index card (v :: vs) e = e v * size card vs + index card vs e.
Proof. unfold index at 1. simpl. apply index_from. Qed.

Lemma index_lt vs e :
  (forall v, In v vs -> e v < card v) -> index card vs e < size card vs.
Proof.
  induction vs as [|v vs IH]; intros H.
  - simpl. unfold index. simpl. lia.
  - rewrite index_cons. simpl.
    assert (Hv : e v < card v) by (apply H; now left).
    assert (Hi : index card vs e < size card vs)
      by (apply IH; intros w Hw; apply H; now right).
    nia.
Qed.

Lemma index_ext vs e e' :
  (forall v, In v vs -> e v = e' v) -> index card vs e = index card vs e'.
Proof.
  unfold index. generalize 0.
  induction vs as [|v vs IH]; intros i H; simpl; [reflexivity|].
  rewrite (H v (or_introl eq_refl)). apply IH.
  intros w Hw. apply H. now right.
Qed.

Lemma length_flat_map_uniform {A B : Type} (f : A -> list B) (l : list A) n :
  (forall x, In x l -> length (f x) = n) ->
  length (flat_map f l) = length l * n.
Proof.
  induction l as [|a l IH]; intros H; simpl; [reflexivity|].
  rewrite length_app, IH, (H a (or_introl eq_refl)); [reflexivity|].
  intros x Hx. apply H. now right.
Qed.

Lemma length_assignments vs : forall base,
  length (assignments card vs base) = size card vs.
Proof.
  induction vs as [|v vs IH]; intros base; simpl; [reflexivity|].
  rewrite (length_flat_map_uniform _ _ (size card vs)).
  - now rewrite length_seq.
  - intros x _. apply IH.
Qed.

Lemma nth_flat_map_uniform {A B : Type} (f : A -> list B) (l : list A) n d d0 :
  (forall x, length (f x) = n) ->
  forall a r, a < length l -> r < n ->
    nth (a * n + r) (flat_map f l) d = nth r (f (nth a l d0)) d.
Proof.
  intros Hlen. induction l as [|b l IH]; intros a r Ha Hr; simpl in *; [lia|].
  destruct a as [|a]; simpl.
  - rewrite app_nth1; [reflexivity | rewrite Hlen; exact Hr].
  - rewrite app_nth2; rewrite Hlen; [|lia].
    replace (n + a * n + r - n) with (a * n + r) by lia.
    apply IH; lia.
Qed.

Lemma nth_assignments vs e : forall base d,
  (forall v, In v vs -> e v < card v) ->
  nth (index card vs e) (assignments card vs base) d = overlay vs e base.
Proof.
  induction vs as [|v vs IH]; intros base d H.
  - reflexivity.
  - rewrite index_cons. simpl.
    assert (Hv : e v < card v) by (apply H; now left).
    assert (Hi : index card vs e < size card vs)
      by (apply index_lt; intros w Hw; apply H; now right).
    rewrite (nth_flat_map_uniform _ _ (size card vs) d 0).
    + rewrite seq_nth by exact Hv. simpl.
      apply IH. intros w Hw. apply H. now right.
    + intros x. apply length_assignments.
    + now rewrite length_seq.
    + exact Hi.
Qed.

Lemma overlay_notin vs e : forall base v,
  ~ In v vs -> overlay vs e base v = base v.
Proof.
  unfold overlay.
  induction vs as [|w vs IH]; intros base v H; simpl; [reflexivity|].
  rewrite IH by (intros Hin; apply H; now right).
  apply upd_other. intros E. apply H. now left.
Qed.

Lemma overlay_in vs e : forall base v,
  In v vs -> overlay vs e base v = e v.
Proof.
  unfold overlay.
  induction vs as [|w vs IH]; intros base v H; simpl; [destruct H|].
  destruct (in_dec string_dec v vs) as [Hin | Hout].
  - now apply IH.
  - destruct H as [E | Hin]; [subst w | contradiction].
    change (overlay vs e (upd base v (e v)) v = e v).
    rewrite overlay_notin by exact Hout. apply upd_same.
Qed.

Lemma in_domain_assignments vs : forall base a,
  in_domain card base -> In a (assignments card vs base) -> in_domain card a.
Proof.
  induction vs as [|v vs IH]; intros base a Hb Ha; simpl in Ha.
  - destruct Ha as [E | []]. now subst.
  - apply in_flat_map in Ha as [x [Hx Ha]].
    apply in_seq in Hx. apply (IH (upd base v x)); [|exact Ha].
    apply in_domain_upd; [exact Hb | lia].
Qed.

Lemma value_at_local f : local_to (scope f) (value_at card f).
Proof.
  intros e e' H. unfold value_at. now rewrite (index_ext _ e e' H).
Qed.

Lemma value_at_tabulate vs g e :
  (forall v, In v vs -> e v < card v) ->
  local_to vs g ->
  value_at card (tabulate card vs g) e = g e.
Proof.
  intros He Hg. unfold value_at, tabulate. simpl.
  assert (Hi : index card vs e < size card vs) by now apply index_lt.
  rewrite (nth_indep _ _ (g (fun _ => 0))) by now rewrite length_map, length_assignments.
  rewrite map_nth, nth_assignments by exact He.
  apply Hg. intros v Hv. now apply overlay_in.
Qed.

Lemma value_at_upd_notin f e v x :
  ~ In v (scope f) -> value_at card f (upd e v x) = value_at card f e.
Proof.
  intros H. apply value_at_local. intros w Hw.
  apply upd_other. intros E. subst. contradiction.
Qed.

Lemma value_at_multiply f g e :
  in_domain card e ->
  value_at card (multiply card f g) e
  = (value_at card f e * value_at card g e)%Q.
Proof.
  intros He. unfold multiply.
  apply (value_at_tabulate _ (fun e => (value_at card f e * value_at card g e)%Q)).
  - intros v _. apply He.
  - intros e1 e2 H. f_equal; apply value_at_local; intros v Hv; apply H, In_union; tauto.
Qed.

Lemma marginalize_inr v f h :
  marginalize card v f = inr h ->
  In v (scope f)
  /\ h = tabulate card (drop v (scope f))
           (fun e => Qsum (map (fun x => value_at card f (upd e v x)) (seq 0 (card v)))).
Proof.
  unfold marginalize, mentions. destruct (mem v (scope f)) eqn:E; [|discriminate].
  intros H. inversion H. split; [now apply mem_In | reflexivity].
Qed.

Lemma upd_agree e e' v x (vs : list string) :
  (forall w, In w (drop v vs) -> e w = e' w) ->
  forall w, In w vs -> upd e v x w = upd e' v x w.
Proof.
  intros H w Hw. unfold upd. destruct (String.eqb w v) eqn:E; [reflexivity|].
  apply H, In_drop. split; [exact Hw | now apply String.eqb_neq].
Qed.

Lemma value_at_marginalize v f h e :
  marginalize card v f = inr h -> in_domain card e ->
  value_at card h e
  = Qsum (map (fun x => value_at card f (upd e v x)) (seq 0 (card v))).
Proof.
  intros Hm He. apply marginalize_inr in Hm as [_ ->].
  apply (value_at_tabulate _
           (fun e => Qsum (map (fun x => value_at card f (upd e v x)) (seq 0 (card v))))).
  - intros w _. apply He.
  - intros e1 e2 H. f_equal. apply map_ext. intros x.
    apply value_at_local. now apply upd_agree.
Qed.

Lemma restrict_inr v x f h :
  restrict card v x f = inr h ->
  In v (scope f) /\ x < card v
  /\ h = tabulate card (drop v (scope f)) (fun e => value_at card f (upd e v x)).
Proof.
  unfold restrict, mentions.
  destruct (mem v (scope f)) eqn:E; simpl; [|discriminate].
  destruct (card v <=? x) eqn:L; [discriminate|].
  intros H. inversion H. apply Nat.leb_gt in L.
  split; [now apply mem_In|]. split; [exact L | reflexivity].
Qed.


End FactorTheory.

(** ** What elimination computes *)

Section EliminationTheory.

Variable card : string -> nat.

Lemma value_at_unit e : value_at card unit_factor e = 1%Q.
Proof. reflexivity. Qed.

Lemma value_at_fold_multiply fs : forall acc e,
  in_domain card e ->
  (value_at card (fold_left (multiply card) fs acc) e
   == value_at card acc e * product_at card fs e)%Q.
Proof.
  induction fs as [|f fs IH]; intros acc e He; simpl.
  - ring.
  - rewrite IH by exact He. rewrite value_at_multiply by exact He. ring.
Qed.

Lemma value_at_multiply_all fs e :
  in_domain card e ->
  (value_at card (multiply_all card fs) e == product_at card fs e)%Q.
Proof.
  intros He. unfold multiply_all.
  rewrite value_at_fold_multiply by exact He.
  rewrite value_at_unit. ring.
Qed.

Lemma product_at_app a b e :
  (product_at card (a ++ b) e == product_at card a e * product_at card b e)%Q.
Proof.
  induction a as [|f a IH]; simpl.
  - ring.
  - rewrite IH. ring.
Qed.

Lemma product_at_filter (p : Factor -> bool) fs e :
  (product_at card fs e
   == product_at card (filter p fs) e * product_at card (filter (fun f => negb (p f)) fs) e)%Q.
Proof.
  induction fs as [|f fs IH]; simpl.
  - ring.
  - destruct (p f); simpl; rewrite IH; ring.
Qed.

Lemma product_at_upd_notin fs e v x :
  (forall f, In f fs -> ~ In v (scope f)) ->
  product_at card fs (upd e v x) = product_at card fs e.
Proof.
  induction fs as [|f fs IH]; intros H; simpl; [reflexivity|].
  rewrite value_at_upd_notin by (apply H; now left).
  rewrite IH; [reflexivity|]. intros g Hg. apply H. now right.
Qed.

Lemma product_at_respects fs : respects (product_at card fs).
Proof.
  intros e e' H. induction fs as [|f fs IH]; simpl; [reflexivity|].
  rewrite IH. rewrite (value_at_local card f e e'); [reflexivity|].
  intros v _. apply H.
Qed.

Lemma eliminate_inr v fs fs' :
  eliminate card v fs = inr fs' ->
  exists g,
    marginalize card v (multiply_all card (filter (mentions v) fs)) = inr g
    /\ fs' = filter (fun f => negb (mentions v f)) fs ++ [g].
Proof.
  unfold eliminate, bind.
  destruct (marginalize card v _) as [e|g]; [discriminate|].
  intros H. inversion H. now exists g.
Qed.

(** One elimination step sums the product over the eliminated variable. *)
Lemma product_at_eliminate v fs fs' e :
  eliminate card v fs = inr fs' -> in_domain card e ->
  (product_at card fs' e
   == Qsum (map (fun x => product_at card fs (upd e v x)) (seq 0 (card v))))%Q.
Proof.
  intros Hel He. apply eliminate_inr in Hel as [g [Hg ->]].
  rewrite product_at_app. simpl.
  rewrite (value_at_marginalize card _ _ _ _ Hg He).
  rewrite Qmult_1_r, <- Qsum_map_scale.
  apply Qsum_map_ext. intros x Hx. apply in_seq in Hx.
  rewrite value_at_multiply_all by (apply in_domain_upd; [exact He | lia]).
  rewrite (product_at_filter (mentions v) fs (upd e v x)).
  rewrite (product_at_upd_notin (filter (fun f => negb (mentions v f)) fs)).
  - ring.
  - intros f Hf. apply filter_In in Hf as [_ Hf].
    apply negb_true_iff in Hf. now apply mem_false.
Qed.

Lemma sum_out_ext (P : assignment -> Prop) vs :
  (forall e v x, P e -> x < card v -> P (upd e v x)) ->
  forall g1 g2 e,
    (forall e', P e' -> (g1 e' == g2 e')%Q) -> P e ->
    (sum_out card vs g1 e == sum_out card vs g2 e)%Q.
Proof.
  intros HP. induction vs as [|v vs IH]; intros g1 g2 e H He; simpl.
  - now apply H.
  - apply IH; [|exact He]. intros e' He'.
    apply Qsum_map_ext. intros x Hx. apply in_seq in Hx.
    apply H, HP; [exact He' | lia].
Qed.

Lemma sum_out_ext_all vs g1 g2 e :
  (forall e', (g1 e' == g2 e')%Q) -> (sum_out card vs g1 e == sum_out card vs g2 e)%Q.
Proof.
  intros H. apply (sum_out_ext (fun _ => True)); auto.
Qed.

Lemma respects_sum g v :
  respects g ->
  respects (fun e => Qsum (map (fun x => g (upd e v x)) (seq 0 (card v)))).
Proof.
  intros Hg e e' H. apply Qsum_map_ext. intros x _. apply Hg.
  intros w. unfold upd. destruct (String.eqb w v); [reflexivity | apply H].
Qed.

(** Two sums in a row commute. *)
Lemma Qsum_upd_swap g e v w :
  respects g ->
  (Qsum (map (fun x => Qsum (map (fun y => g (upd (upd e v x) w y)) (seq 0 (card w))))
             (seq 0 (card v)))
   == Qsum (map (fun y => Qsum (map (fun x => g (upd (upd e w y) v x)) (seq 0 (card v))))
                (seq 0 (card w))))%Q.
Proof.
  intros Hg. destruct (string_dec v w) as [E | N].
  - subst w. apply Qsum_map_ext. intros x _. apply Qsum_map_ext. intros y _.
    apply Hg. intros u. unfold upd. now destruct (String.eqb u v).
  - rewrite Qsum_swap. apply Qsum_map_ext. intros y _. apply Qsum_map_ext. intros x _.
    apply Hg. intros u. unfold upd.
    destruct (String.eqb u w) eqn:E1, (String.eqb u v) eqn:E2; try reflexivity.
    apply String.eqb_eq in E1, E2. congruence.
Qed.

(** The order of the eliminated variables does not change the sum. *)
Lemma sum_out_perm vs1 vs2 :
  Permutation vs1 vs2 ->
  forall g e, respects g -> (sum_out card vs1 g e == sum_out card vs2 g e)%Q.
Proof.
  induction 1 as [| v l l' _ IH | v w l | l l' l'' _ IH1 _ IH2]; intros g e Hg.
  - reflexivity.
  - simpl. apply IH. now apply respects_sum.
  - simpl. apply sum_out_ext_all. intros e'.
    apply (Qsum_upd_swap g e' v w Hg).
  - rewrite IH1 by exact Hg. now apply IH2.
Qed.

Lemma sum_out_outer vs : forall g e v,
  respects g ->
  (sum_out card vs (fun e' => Qsum (map (fun x => g (upd e' v x)) (seq 0 (card v)))) e
   == Qsum (map (fun x => sum_out card vs g (upd e v x)) (seq 0 (card v))))%Q.
Proof.
  induction vs as [|w vs IH]; intros g e v Hg; simpl.
  - reflexivity.
  - rewrite <- IH by now apply respects_sum.
    apply sum_out_ext_all. intros e'. apply (Qsum_upd_swap g e' w v Hg).
Qed.

Lemma sum_in_out vs : forall g e,
  respects g -> (sum_in card vs g e == sum_out card vs g e)%Q.
Proof.
  induction vs as [|v vs IH]; intros g e Hg; simpl.
  - reflexivity.
  - rewrite sum_out_outer by exact Hg.
    apply Qsum_map_ext. intros x _. now apply IH.
Qed.

(** The sum of a dense array is the sum over its scope. *)
Lemma Qsum_assignments vs : forall g base,
  (Qsum (map g (assignments card vs base)) == sum_in card vs g base)%Q.
Proof.
  induction vs as [|v vs IH]; intros g base; simpl.
  - ring.
  - assert (E : forall l,
               map g (flat_map (fun x => assignments card vs (upd base v x)) l)
               = flat_map (fun x => map g (assignments card vs (upd base v x))) l).
    { induction l as [|a l IHl]; simpl; [reflexivity|]. now rewrite map_app, IHl. }
    rewrite E, Qsum_flat_map.
    apply Qsum_map_ext. intros x _. apply IH.
Qed.

(** Eliminating a list of variables sums the product over all of them. *)
Lemma product_at_eliminate_all order : forall fs fs' e,
  eliminate_all card order fs = inr fs' -> in_domain card e ->
  (product_at card fs' e == sum_out card order (product_at card fs) e)%Q.
Proof.
  induction order as [|v order IH]; intros fs fs' e H He; simpl in *.
  - inversion H. reflexivity.
  - unfold bind in H. destruct (eliminate card v fs) as [err|fs1] eqn:E1; [discriminate|].
    rewrite (IH fs1 fs' e H He).
    apply (sum_out_ext (in_domain card)); [|  |exact He].
    + intros e' u x. apply in_domain_upd.
    + intros e' He'. now apply product_at_eliminate.
Qed.

End EliminationTheory.

(** ** Scopes of the working set *)

Section WorkingSet.

Variable card : string -> nat.

Lemma scope_fold_multiply fs : forall acc w,
  In w (scope (fold_left (multiply card) fs acc))
  <-> In w (scope acc) \/ mentioned fs w.
Proof.
  induction fs as [|f fs IH]; intros acc w; simpl.
  - split; [tauto|]. intros [H | [f [[] _]]]. exact H.
  - rewrite IH. unfold multiply at 1. simpl. rewrite In_union. split.
    + intros [[H | H] | [g [Hg Hw]]].
      * now left.
      * right. exists f. split; [now left | exact H].
      * right. exists g. split; [now right | exact Hw].
    + intros [H | [g [[E | Hg] Hw]]].
      * left. now left.
      * subst g. left. now right.
      * right. now exists g.
Qed.

Lemma scope_multiply_all fs w :
  In w (scope (multiply_all card fs)) <-> mentioned fs w.
Proof.
  unfold multiply_all. rewrite scope_fold_multiply. simpl. tauto.
Qed.

Lemma NoDup_fold_multiply fs : forall acc,
  NoDup (scope acc) -> nodup_scopes fs ->
  NoDup (scope (fold_left (multiply card) fs acc)).
Proof.
  induction fs as [|f fs IH]; intros acc Ha Hfs; simpl; [exact Ha|].
  inversion Hfs; subst. apply IH; [|assumption].
  unfold multiply. simpl. now apply NoDup_union.
Qed.

Lemma NoDup_multiply_all fs :
  nodup_scopes fs -> NoDup (scope (multiply_all card fs)).
Proof. apply NoDup_fold_multiply. constructor. Qed.

Lemma mentioned_filter v fs :
  mentioned fs v <-> mentioned (filter (mentions v) fs) v.
Proof.
  split; intros [f [Hf Hv]]; exists f.
  - split; [|exact Hv]. apply filter_In. split; [exact Hf | now apply mem_In].
  - apply filter_In in Hf as [Hf _]. now split.
Qed.

Lemma eliminate_mentioned v fs :
  mentioned fs v -> exists fs', eliminate card v fs = inr fs'.
Proof.
  intros H. unfold eliminate, marginalize, mentions.
  assert (E : mem v (scope (multiply_all card (filter (fun f => mem v (scope f)) fs))) = true).
  { apply mem_In, scope_multiply_all. now apply mentioned_filter in H. }
  rewrite E. simpl. eauto.
Qed.

Lemma eliminate_inl v fs e :
  eliminate card v fs = inl e -> e = ScopeError /\ ~ mentioned fs v.
Proof.
  unfold eliminate, marginalize, mentions.
  destruct (mem v (scope (multiply_all card (filter (fun f => mem v (scope f)) fs)))) eqn:E;
    simpl; [discriminate|].
  intros H. inversion H. split; [reflexivity|].
  intros Hm. apply mem_false in E. apply E, scope_multiply_all.
  now apply mentioned_filter in Hm.
Qed.

Lemma eliminate_inr_mentioned v fs fs' :
  eliminate card v fs = inr fs' ->
  mentioned fs v
  /\ forall w, mentioned fs' w <-> mentioned fs w /\ w <> v.
Proof.
  intros H. apply eliminate_inr in H as [g [Hg ->]].
  apply marginalize_inr in Hg as [Hv ->].
  split.
  { apply scope_multiply_all in Hv. now apply mentioned_filter. }
  intros w. split.
  - intros [f [Hf Hw]]. apply in_app_or in Hf as [Hf | [Hf | []]].
    + apply filter_In in Hf as [Hf Hn]. apply negb_true_iff, mem_false in Hn.
      split; [now exists f | congruence].
    + subst f. simpl in Hw. apply In_drop in Hw as [Hw Hne].
      split; [|exact Hne].
      apply scope_multiply_all in Hw as [f [Hf Hw]].
      apply filter_In in Hf as [Hf _]. now exists f.
  - intros [[f [Hf Hw]] Hne].
    destruct (mentions v f) eqn:E.
    + eexists. split; [apply in_or_app; right; left; reflexivity|].
      simpl. apply In_drop. split; [|exact Hne].
      apply scope_multiply_all. exists f. split; [|exact Hw].
      apply filter_In. now split.
    + exists f. split; [|exact Hw]. apply in_or_app. left.
      apply filter_In. split; [exact Hf | now rewrite E].
Qed.

Lemma eliminate_nodup v fs fs' :
  eliminate card v fs = inr fs' -> nodup_scopes fs -> nodup_scopes fs'.
Proof.
  intros H Hfs. apply eliminate_inr in H as [g [Hg ->]].
  apply marginalize_inr in Hg as [_ ->].
  apply Forall_app. split.
  - apply Forall_forall. intros f Hf. apply filter_In in Hf as [Hf _].
    unfold nodup_scopes in Hfs. rewrite Forall_forall in Hfs. now apply Hfs.
  - constructor; [|constructor]. simpl. apply NoDup_drop, NoDup_multiply_all.
    apply Forall_forall. intros f Hf. apply filter_In in Hf as [Hf _].
    unfold nodup_scopes in Hfs. rewrite Forall_forall in Hfs. now apply Hfs.
Qed.

(** Elimination of a list of variables succeeds exactly when the
    variables are distinct and mentioned by the working set; it then
    removes them, and nothing else, from the scopes. *)
Lemma eliminate_all_inr order : forall fs fs',
  eliminate_all card order fs = inr fs' ->
  NoDup order
  /\ (forall v, In v order -> mentioned fs v)
  /\ (forall w, mentioned fs' w <-> mentioned fs w /\ ~ In w order)
  /\ (nodup_scopes fs -> nodup_scopes fs').
Proof.
  induction order as [|v order IH]; intros fs fs' H; simpl in H.
  - inversion H; subst. split; [constructor|]. split; [intros v []|].
    split; [intros w; simpl; tauto | auto].
  - unfold bind in H. destruct (eliminate card v fs) as [e|fs1] eqn:E1; [discriminate|].
    destruct (IH fs1 fs' H) as [Hnd [Hcov [Hscope Hno]]].
    destruct (eliminate_inr_mentioned v fs fs1 E1) as [Hv Hstep].
    split; [|split; [|split]].
    + constructor; [|exact Hnd]. intros Hin.
      apply Hcov, Hstep in Hin. now destruct Hin.
    + intros w [-> | Hw]; [exact Hv|]. now apply Hcov, Hstep in Hw.
    + intros w. rewrite Hscope, Hstep. simpl. split.
      * intros [[Hm Hne] Hni]. split; [exact Hm|]. intros [E | Hin]; [congruence | contradiction].
      * intros [Hm Hni]. split; [split; [exact Hm|]|]; intro; apply Hni; auto.
    + intros Hfs. apply Hno. now apply (eliminate_nodup v fs).
Qed.

Lemma eliminate_all_covered order : forall fs,
  NoDup order -> (forall v, In v order -> mentioned fs v) ->
  exists fs', eliminate_all card order fs = inr fs'.
Proof.
  induction order as [|v order IH]; intros fs Hnd Hcov; simpl.
  - eauto.
  - destruct (eliminate_mentioned v fs (Hcov v (or_introl eq_refl))) as [fs1 E1].
    rewrite E1. simpl. inversion Hnd; subst. apply IH; [assumption|].
    intros w Hw. apply (eliminate_inr_mentioned v fs fs1 E1).
    split; [apply Hcov; now right | congruence].
Qed.

Lemma eliminate_all_inl order : forall fs e,
  eliminate_all card order fs = inl e -> e = ScopeError.
Proof.
  induction order as [|v order IH]; intros fs e H; simpl in H; [discriminate|].
  unfold bind in H. destruct (eliminate card v fs) as [e1|fs1] eqn:E1.
  - inversion H; subst. now apply eliminate_inl in E1.
  - now apply (IH fs1).
Qed.

End WorkingSet.

(** ** The query as a function of the model *)

Lemma for_each_eliminate card order : forall s,
  match eliminate_all card order (eng_factors s) with
  | inr fs' =>
      for_each order (eliminate_step card) s
      = (inr tt, {| eng_model := eng_model s; eng_factors := fs' |})
  | inl e => fst (for_each order (eliminate_step card) s) = inl e
  end.
Proof.
  induction order as [|v order IH]; intros s; simpl.
  - now destruct s.
  - destruct (eliminate card v (eng_factors s)) as [e|fs1] eqn:E1; simpl.
    + unfold mbind, eliminate_step, mbind, read_factors, lift. now rewrite E1.
    + assert (Hstep : mbind (eliminate_step card v)
                            (fun _ => for_each order (eliminate_step card)) s
                      = for_each order (eliminate_step card)
                          {| eng_model := eng_model s; eng_factors := fs1 |}).
      { unfold mbind, eliminate_step, mbind, read_factors, lift. now rewrite E1. }
      rewrite Hstep.
      apply (IH {| eng_model := eng_model s; eng_factors := fs1 |}).
Qed.

Lemma posterior_with_order_eq m variables ev order :
  posterior_with_order m variables ev order
  = match variables with
    | [] => inl EmptyQueryError
    | _ :: _ =>
        if negb (evidence_ok m variables ev) then inl InvalidEvidenceError
        else
          bind (restrict_all (cardinality m) (observed ev) (map to_factor (cpds m)))
               (fun fs0 =>
          bind (eliminate_all (cardinality m) order fs0)
               (fun fs => normalize (multiply_all (cardinality m) fs)))
    end.
Proof.
  unfold posterior_with_order, query_with_order.
  unfold mbind at 1. unfold read_model at 1. simpl.
  destruct variables as [|q qs]; [reflexivity|].
  destruct (negb (evidence_ok m (q :: qs) ev)); [reflexivity|].
  unfold mbind at 1. unfold lift at 1.
  destruct (restrict_all (cardinality m) (observed ev) (map to_factor (cpds m)))
    as [e|fs0]; [reflexivity|].
  simpl. unfold mbind at 1. unfold write_factors at 1. simpl.
  unfold mbind at 1.
  pose proof (for_each_eliminate (cardinality m) order
                {| eng_model := m; eng_factors := fs0 |}) as H.
  simpl in H.
  destruct (eliminate_all (cardinality m) order fs0) as [e|fs].
  - simpl.
    destruct (for_each order _ _) as [[e'|[]] s']; simpl in *; congruence.
  - rewrite H. reflexivity.
Qed.

Lemma infer_eq ev m :
  fst (infer ev m)
  = posterior_with_order m ["Nota"] ev (elimination_order m ["Nota"] ev).
Proof. reflexivity. Qed.

(** ** The joint factor and its normalization *)

Lemma Forall2_map_same {A B : Type} (R : B -> B -> Prop) (f g : A -> B) (l : list A) :
  (forall a, In a l -> R (f a) (g a)) -> Forall2 R (map f l) (map g l).
Proof.
  induction l as [|a l IH]; intros H; simpl; constructor.
  - apply H. now left.
  - apply IH. intros b Hb. apply H. now right.
Qed.

Section JointTheory.

Variable card : string -> nat.
Hypothesis card_pos : forall v, 0 < card v.

Lemma in_domain_zero : in_domain card (fun _ => 0).
Proof. intros v. apply card_pos. Qed.

Lemma tabulated_tabulate vs g : local_to vs g -> tabulated card (tabulate card vs g).
Proof.
  intros Hg. unfold tabulated. simpl. apply map_ext_in. intros a Ha.
  symmetry. apply value_at_tabulate; [|exact Hg].
  intros v _. apply (in_domain_assignments card vs _ a in_domain_zero Ha).
Qed.

Lemma tabulated_multiply f g : tabulated card (multiply card f g).
Proof.
  apply tabulated_tabulate. intros e1 e2 H.
  f_equal; apply value_at_local; intros v Hv; apply H, In_union; tauto.
Qed.

Lemma tabulated_multiply_all fs : tabulated card (multiply_all card fs).
Proof.
  unfold multiply_all.
  destruct fs as [|f fs] using rev_ind.
  - reflexivity.
  - rewrite fold_left_app. simpl. apply tabulated_multiply.
Qed.

(** The sum of the joint factor is the product of the working set summed
    over the scope of the joint. *)
Lemma Qsum_multiply_all fs :
  (Qsum (values (multiply_all card fs))
   == sum_out card (scope (multiply_all card fs)) (product_at card fs)
              (fun _ => 0%nat))%Q.
Proof.
  rewrite (tabulated_multiply_all fs) at 1.
  rewrite Qsum_assignments.
  rewrite sum_in_out.
  - apply (sum_out_ext card (in_domain card)).
    + intros e v x. apply in_domain_upd.
    + intros e He. now apply value_at_multiply_all.
    + apply in_domain_zero.
  - intros e e' H. rewrite (value_at_local card _ e e'); [reflexivity|].
    intros v _. apply H.
Qed.

Lemma normalize_inr f h :
  normalize f = inr h ->
  (epsilon < Qsum (values f))%Q
  /\ h = {| scope := scope f;
            values := map (fun x => (x / Qsum (values f))%Q) (values f) |}.
Proof.
  unfold normalize. destruct (Qle_bool (Qsum (values f)) epsilon) eqn:E; [discriminate|].
  intros H. inversion H. split; [|reflexivity].
  apply Qnot_le_lt. intros Hle. apply Qle_bool_iff in Hle. congruence.
Qed.

Lemma normalize_inl f e :
  normalize f = inl e ->
  e = DegenerateDistributionError /\ (Qsum (values f) <= epsilon)%Q.
Proof.
  unfold normalize. destruct (Qle_bool (Qsum (values f)) epsilon) eqn:E; [|discriminate].
  intros H. inversion H. split; [reflexivity | now apply Qle_bool_iff].
Qed.

Lemma value_at_normalize f h e :
  normalize f = inr h ->
  (value_at card h e == value_at card f e / Qsum (values f))%Q.
Proof.
  intros H. apply normalize_inr in H as [_ ->]. unfold value_at. simpl.
  set (s := Qsum (values f)). set (i := index card (scope f) e).
  destruct (Nat.lt_ge_cases i (length (values f))) as [Hlt | Hge].
  - rewrite (nth_indep _ _ ((fun x => x / s) 0)%Q) by now rewrite length_map.
    rewrite (map_nth (fun x => (x / s)%Q)). reflexivity.
  - rewrite !nth_overflow; [| exact Hge | now rewrite length_map].
    unfold Qdiv. ring.
Qed.


(** Two working sets with the same product and the same variables give
    the same answer. *)
Lemma normalize_multiply_all_same fs1 fs2 :
  nodup_scopes fs1 -> nodup_scopes fs2 ->
  (forall w, mentioned fs1 w <-> mentioned fs2 w) ->
  (forall e, in_domain card e -> (product_at card fs1 e == product_at card fs2 e)%Q) ->
  match normalize (multiply_all card fs1), normalize (multiply_all card fs2) with
  | inr h1, inr h2 =>
      Permutation (scope h1) (scope h2)
      /\ (forall e, in_domain card e -> (value_at card h1 e == value_at card h2 e)%Q)
      /\ (scope h1 = scope h2 -> Forall2 Qeq (values h1) (values h2))
  | inl e1, inl e2 => e1 = e2
  | _, _ => False
  end.
Proof.
  intros Hn1 Hn2 Hm Hp.
  assert (Hperm : Permutation (scope (multiply_all card fs1))
                              (scope (multiply_all card fs2))).
  { apply NoDup_Permutation; try now apply NoDup_multiply_all.
    intros w. now rewrite !scope_multiply_all. }
  assert (Hsum : (Qsum (values (multiply_all card fs1))
                  == Qsum (values (multiply_all card fs2)))%Q).
  { rewrite !Qsum_multiply_all.
    rewrite (sum_out_perm card _ _ Hperm) by apply product_at_respects.
    apply (sum_out_ext card (in_domain card)).
    - intros e v x. apply in_domain_upd.
    - exact Hp.
    - apply in_domain_zero. }
  destruct (normalize (multiply_all card fs1)) as [e1|h1] eqn:E1,
           (normalize (multiply_all card fs2)) as [e2|h2] eqn:E2.
  - apply normalize_inl in E1 as [-> _]. now apply normalize_inl in E2 as [-> _].
  - apply normalize_inl in E1 as [_ H1]. apply normalize_inr in E2 as [H2 _].
    rewrite Hsum in H1. apply (Qlt_irrefl epsilon).
    now apply Qlt_le_trans with (Qsum (values (multiply_all card fs2))).
  - apply normalize_inr in E1 as [H1 _]. apply normalize_inl in E2 as [_ H2].
    rewrite Hsum in H1. apply (Qlt_irrefl epsilon).
    now apply Qlt_le_trans with (Qsum (values (multiply_all card fs2))).
  - split; [|split].
    + apply normalize_inr in E1 as [_ ->]. now apply normalize_inr in E2 as [_ ->].
    + intros e He.
      rewrite (value_at_normalize _ _ e E1), (value_at_normalize _ _ e E2).
      rewrite !value_at_multiply_all by exact He.
      now rewrite Hsum, (Hp e He).
    + apply normalize_inr in E1 as [_ ->]. apply normalize_inr in E2 as [_ ->].
      simpl. intros Hscope.
      set (s1 := Qsum (values (multiply_all card fs1))) in *.
      set (s2 := Qsum (values (multiply_all card fs2))) in *.
      rewrite (tabulated_multiply_all fs1), (tabulated_multiply_all fs2).
      rewrite <- Hscope, !map_map. apply Forall2_map_same.
      intros a Ha.
      assert (Hdom : in_domain card a)
        by apply (in_domain_assignments card _ _ a in_domain_zero Ha).
      rewrite !value_at_multiply_all by exact Hdom.
      now rewrite Hsum, (Hp a Hdom).
Qed.

End JointTheory.

(** ** Non-negative values *)

Section Nonnegative.

Variable card : string -> nat.

Lemma value_at_nonneg f e : nonneg f -> (0 <= value_at card f e)%Q.
Proof.
  intros H. unfold value_at.
  destruct (nth_in_or_default (index card (scope f) e) (values f) 0%Q) as [Hin | ->].
  - unfold nonneg in H. rewrite Forall_forall in H. now apply H.
  - apply Qle_refl.
Qed.

Lemma nonneg_tabulate vs g : (forall e, 0 <= g e)%Q -> nonneg (tabulate card vs g).
Proof.
  intros H. unfold nonneg, tabulate. simpl. apply Forall_map, Forall_forall.
  intros a _. apply H.
Qed.




Lemma nonneg_restrict v x f h :
  restrict card v x f = inr h -> nonneg f -> nonneg h.
Proof.
  intros H Hf. apply restrict_inr in H as [_ [_ ->]].
  apply nonneg_tabulate. intros e. now apply value_at_nonneg.
Qed.



(** ** Restriction by the evidence *)

Lemma restrict_evidence_inr ev : forall f h,
  restrict_evidence card ev f = inr h ->
  (forall w, In w (scope h) <-> In w (scope f) /\ ~ In w (map fst ev))
  /\ (NoDup (scope f) -> NoDup (scope h))
  /\ (nonneg f -> nonneg h).
Proof.
  induction ev as [|[v x] ev IH]; intros f h H; simpl in H.
  - inversion H; subst. simpl. repeat split; tauto.
  - destruct (mentions v f) eqn:Em.
    + unfold bind in H. destruct (restrict card v x f) as [e|g] eqn:Er; [discriminate|].
      destruct (IH g h H) as [Hs [Hn Hp]].
      pose proof (restrict_inr card v x f g Er) as [_ [_ Eg]].
      assert (Hg : scope g = drop v (scope f)) by now rewrite Eg.
      split; [|split].
      * intros w. rewrite Hs, Hg, In_drop. simpl. split.
        -- intros [[H1 H2] H3]. split; [exact H1|]. intros [E | Hin]; [congruence | contradiction].
        -- intros [H1 H2]. repeat split; auto.
      * intros Hf. apply Hn. rewrite Hg. now apply NoDup_drop.
      * intros Hf. apply Hp. now apply (nonneg_restrict v x f).
    + destruct (IH f h H) as [Hs [Hn Hp]].
      split; [|split; assumption].
      intros w. rewrite Hs. simpl. apply mem_false in Em. split.
      * intros [H1 H2]. split; [exact H1|]. intros [E | Hin]; [subst; contradiction | contradiction].
      * intros [H1 H2]. split; auto.
Qed.


Lemma restrict_all_inr ev : forall fs gs,
  restrict_all card ev fs = inr gs ->
  Forall2 (fun f g => restrict_evidence card ev f = inr g) fs gs.
Proof.
  induction fs as [|f fs IH]; intros gs H; simpl in H.
  - inversion H. constructor.
  - unfold bind in H.
    destruct (restrict_evidence card ev f) as [e|g] eqn:E1; [discriminate|].
    destruct (restrict_all card ev fs) as [e|gs'] eqn:E2; [discriminate|].
    inversion H; subst. constructor; [exact E1 | now apply IH].
Qed.


Lemma restrict_all_inl ev : forall fs e,
  restrict_all card ev fs = inl e -> e = DomainError.
Proof.
  assert (G : forall ev f e, restrict_evidence card ev f = inl e -> e = DomainError).
  { clear ev. induction ev as [|[v x] ev IH]; intros f e H; simpl in H; [discriminate|].
    destruct (mentions v f); [|now apply (IH f)].
    unfold bind in H. destruct (restrict card v x f) as [e1|g] eqn:Er.
    - inversion H; subst. unfold restrict in Er.
      destruct (negb (mentions v f) || (card v <=? x)); now inversion Er.
    - now apply (IH g). }
  induction fs as [|f fs IH]; intros e H; simpl in H; [discriminate|].
  unfold bind in H.
  destruct (restrict_evidence card ev f) as [e1|g] eqn:E1.
  - inversion H; subst. now apply (G ev f).
  - destruct (restrict_all card ev fs) as [e2|gs] eqn:E2; [|discriminate].
    inversion H; subst. now apply IH.
Qed.

Lemma restrict_all_props ev fs gs :
  restrict_all card ev fs = inr gs ->
  (forall w, mentioned gs w <-> mentioned fs w /\ ~ In w (map fst ev))
  /\ (nodup_scopes fs -> nodup_scopes gs)
  /\ (Forall nonneg fs -> Forall nonneg gs).
Proof.
  intros H. apply restrict_all_inr in H.
  induction H as [|f g fs gs Hfg _ IH].
  - split; [|split; auto]. intros w. split.
    + intros [f [[] _]].
    + intros [[f [[] _]] _].
  - destruct IH as [Hs [Hn Hp]].
    destruct (restrict_evidence_inr ev f g Hfg) as [Hs1 [Hn1 Hp1]].
    split; [|split].
    + intros w. split.
      * intros [h [[E | Hin] Hw]].
        -- subst h. apply Hs1 in Hw as [Hw Hni]. split; [|exact Hni].
           exists f. split; [now left | exact Hw].
        -- destruct (proj1 (Hs w)) as [[f' [Hf' Hw']] Hni]; [now exists h|].
           split; [|exact Hni]. exists f'. split; [now right | exact Hw'].
      * intros [[f' [[E | Hin] Hw]] Hni].
        -- subst f'. exists g. split; [now left|]. apply Hs1. now split.
        -- destruct (proj2 (Hs w)) as [h [Hh Hw']]; [split; [now exists f' | exact Hni]|].
           exists h. split; [now right | exact Hw'].
    + intros Hfs. inversion Hfs; subst. constructor; [now apply Hn1 | now apply Hn].
    + intros Hfs. inversion Hfs; subst. constructor; [now apply Hp1 | now apply Hp].
Qed.

End Nonnegative.

(** ** What validation gives *)

Lemma check_model_parts m :
  check_model m = true ->
  nodupb (nodes m) = true
  /\ forallb (fun e => mem (fst e) (nodes m) && mem (snd e) (nodes m)) (edges m) = true
  /\ acyclic m = true
  /\ forallb (fun v => match get_cpd v m with Some _ => true | None => false end)
             (nodes m) = true
  /\ nodupb (map variable (cpds m)) = true
  /\ forallb (cpd_ok m) (cpds m) = true.
Proof. unfold check_model. rewrite !andb_true_iff. tauto. Qed.

Lemma cpd_ok_parts m c :
  cpd_ok m c = true ->
  1 <= variable_card c
  /\ In (variable c) (nodes m)
  /\ NoDup (variable c :: evidence c)
  /\ (forall w, In w (evidence c) -> In w (parents (variable c) m))
  /\ Forall (Forall (fun x => 0 <= x)%Q) (cpd_values c).
Proof.
  unfold cpd_ok. rewrite !andb_true_iff.
  intros [[[[[[[[[[H1 H2] H3] H4] _] _] _] _] _] H5] _].
  split; [now apply Nat.leb_le|].
  split; [now apply mem_In|].
  split; [now apply nodupb_NoDup|].
  split.
  - intros w Hw. unfold subset in H4. rewrite forallb_forall in H4.
    now apply mem_In, H4.
  - apply Forall_forall. intros row Hrow. apply Forall_forall. intros x Hx.
    rewrite forallb_forall in H5. specialize (H5 row Hrow).
    rewrite forallb_forall in H5. now apply Qle_bool_iff, H5.
Qed.

Lemma check_model_cpd_ok m c :
  check_model m = true -> In c (cpds m) -> cpd_ok m c = true.
Proof.
  intros H Hc. apply check_model_parts in H as [_ [_ [_ [_ [_ H]]]]].
  rewrite forallb_forall in H. now apply H.
Qed.

Lemma cardinality_pos m : check_model m = true -> forall v, 0 < cardinality m v.
Proof.
  intros H v. unfold cardinality, get_cpd.
  destruct (find _ (cpds m)) as [c|] eqn:E; [|lia].
  apply find_some in E as [Hc _].
  apply (check_model_cpd_ok m c H), cpd_ok_parts in Hc. lia.
Qed.

Lemma initial_nodup m :
  check_model m = true -> nodup_scopes (map to_factor (cpds m)).
Proof.
  intros H. apply Forall_map, Forall_forall. intros c Hc.
  apply (check_model_cpd_ok m c H), cpd_ok_parts in Hc. simpl. tauto.
Qed.



Lemma node_has_cpd m v :
  check_model m = true -> In v (nodes m) ->
  exists c, In c (cpds m) /\ variable c = v.
Proof.
  intros H Hv. apply check_model_parts in H as [_ [_ [_ [H _]]]].
  rewrite forallb_forall in H. specialize (H v Hv).
  unfold get_cpd in H. destruct (find _ (cpds m)) as [c|] eqn:E; [|discriminate].
  apply find_some in E as [Hc E]. apply String.eqb_eq in E. now exists c.
Qed.

Lemma initial_mentions_nodes m :
  check_model m = true ->
  forall w, mentioned (map to_factor (cpds m)) w <-> In w (nodes m).
Proof.
  intros H w. split.
  - intros [f [Hf Hw]]. apply in_map_iff in Hf as [c [<- Hc]].
    pose proof (check_model_cpd_ok m c H Hc) as Hok.
    apply cpd_ok_parts in Hok as [_ [Hv [_ [Hpar _]]]].
    simpl in Hw. destruct Hw as [<- | Hw]; [exact Hv|].
    apply Hpar in Hw. unfold parents in Hw.
    apply in_map_iff in Hw as [[a b] [E Hin]]. simpl in E. subst a.
    apply filter_In in Hin as [Hin _].
    apply check_model_parts in H as [_ [He _]].
    rewrite forallb_forall in He. specialize (He _ Hin). simpl in He.
    apply andb_prop in He as [He _]. now apply mem_In.
  - intros Hw. destruct (node_has_cpd m w H Hw) as [c [Hc E]].
    exists (to_factor c). split; [now apply in_map|]. simpl. now left.
Qed.

(** ** The greedy order is an order of the candidates *)






(** ** Evidence and hidden variables *)

Lemma evidence_ok_true m variables ev :
  evidence_ok m variables ev = true ->
  (forall v x, In (v, x) ev -> Z.to_nat x < cardinality m v)
  /\ (forall v, In v (PyDict.keys ev) -> ~ In v variables).
Proof.
  unfold evidence_ok. rewrite forallb_forall. intros H. split.
  - intros v x Hin. specialize (H _ Hin). simpl in H.
    rewrite !andb_true_iff in H. destruct H as [[_ H0] H1].
    apply Z.leb_le in H0. apply Z.ltb_lt in H1. lia.
  - intros v Hin. apply in_map_iff in Hin as [[v' x] [E Hin]]. simpl in E. subst v'.
    specialize (H _ Hin). simpl in H. rewrite !andb_true_iff in H.
    destruct H as [[[_ H] _] _]. now apply negb_true_iff, mem_false in H.
Qed.


Lemma keys_observed ev : map fst (observed ev) = PyDict.keys ev.
Proof. unfold observed, PyDict.keys. rewrite map_map. reflexivity. Qed.

Lemma In_hidden m variables ev w :
  In w (hidden m variables ev)
  <-> In w (nodes m) /\ ~ In w variables /\ ~ In w (PyDict.keys ev).
Proof.
  unfold hidden. rewrite filter_In, andb_true_iff, !negb_true_iff, !mem_false. tauto.
Qed.


(** ** Order independence *)

Lemma same_answer_exact card r1 r2 :
  match r1, r2 with
  | inr h1, inr h2 =>
      Permutation (scope h1) (scope h2)
      /\ (forall e, in_domain card e -> (value_at card h1 e == value_at card h2 e)%Q)
      /\ (scope h1 = scope h2 -> Forall2 Qeq (values h1) (values h2))
  | inl e1, inl e2 => e1 = e2
  | _, _ => False
  end -> same_answer card r1 r2.
Proof.
  destruct r1 as [e1|h1], r2 as [e2|h2]; unfold same_answer; try tauto.
  intros [Hp [Hv Ha]]. split; [exact Hp|]. split; [|exact Ha].
  intros e He. split; [now apply Hv|].
  assert (E : (value_at card h1 e - value_at card h2 e == 0)%Q)
    by (rewrite (Hv e He); ring).
  rewrite (Qabs_wd _ _ E). discriminate.
Qed.

Lemma eliminate_all_permuted card o1 o2 fs fs2 :
  Permutation o1 o2 ->
  eliminate_all card o2 fs = inr fs2 ->
  exists fs1, eliminate_all card o1 fs = inr fs1.
Proof.
  intros Hp H. apply eliminate_all_inr in H as [Hnd [Hcov _]].
  apply eliminate_all_covered.
  - apply (Permutation_NoDup (Permutation_sym Hp) Hnd).
  - intros v Hv. apply Hcov. now apply (Permutation_in v Hp).
Qed.

Lemma eliminate_all_order_independent card o1 o2 fs :
  (forall v, 0 < card v) ->
  nodup_scopes fs ->
  Permutation o1 o2 ->
  same_answer card
    (bind (eliminate_all card o1 fs) (fun fs' => normalize (multiply_all card fs')))
    (bind (eliminate_all card o2 fs) (fun fs' => normalize (multiply_all card fs'))).
Proof.
  intros Hpos Hnd Hp. apply same_answer_exact.
  destruct (eliminate_all card o1 fs) as [e1|fs1] eqn:E1,
           (eliminate_all card o2 fs) as [e2|fs2] eqn:E2; simpl.
  - apply eliminate_all_inl in E1, E2. congruence.
  - destruct (eliminate_all_permuted card o1 o2 fs fs2 Hp E2) as [fs1 E]. congruence.
  - destruct (eliminate_all_permuted card o2 o1 fs fs1 (Permutation_sym Hp) E1) as [fs2 E].
    congruence.
  - destruct (eliminate_all_inr card o1 fs fs1 E1) as [_ [_ [Hs1 Hn1]]].
    destruct (eliminate_all_inr card o2 fs fs2 E2) as [_ [_ [Hs2 Hn2]]].
    assert (Hsame : forall w, mentioned fs1 w <-> mentioned fs2 w).
    { intros w. rewrite Hs1, Hs2. split; intros [Hm Hni]; (split; [exact Hm|]);
        intros Hin; apply Hni.
      - now apply (Permutation_in w (Permutation_sym Hp)).
      - now apply (Permutation_in w Hp). }
    assert (Hprod : forall e, in_domain card e ->
                      (product_at card fs1 e == product_at card fs2 e)%Q).
    { intros e He.
      rewrite (product_at_eliminate_all card o1 fs fs1 e E1 He).
      rewrite (product_at_eliminate_all card o2 fs fs2 e E2 He).
      apply sum_out_perm; [exact Hp | apply product_at_respects]. }
    pose proof (normalize_multiply_all_same card Hpos fs1 fs2
                  (Hn1 Hnd) (Hn2 Hnd) Hsame Hprod) as H.
    destruct (normalize (multiply_all card fs1)),
             (normalize (multiply_all card fs2)); exact H.
Qed.

Lemma posterior_with_order_scope m variables ev order f :
  check_model m = true ->
  valid_order m variables ev order ->
  posterior_with_order m variables ev order = inr f ->
  NoDup (scope f)
  /\ forall w, In w (scope f) <-> In w variables /\ In w (nodes m).
Proof.
  intros Hm Hperm. rewrite posterior_with_order_eq.
  destruct variables as [|q qs]; [discriminate|].
  destruct (evidence_ok m (q :: qs) ev) eqn:Eok; simpl; [|discriminate].
  apply evidence_ok_true in Eok as [_ Hq].
  destruct (restrict_all (cardinality m) (observed ev) (map to_factor (cpds m)))
    as [e|fs0] eqn:E0; [discriminate|].
  cbn [bind].
  destruct (eliminate_all (cardinality m) order fs0) as [e|fs] eqn:E1; [discriminate|].
  cbn [bind]. intros En. apply normalize_inr in En as [_ ->]. simpl.
  destruct (restrict_all_props (cardinality m) _ _ _ E0) as [Hs0 [Hn0 _]].
  rewrite keys_observed in Hs0.
  destruct (eliminate_all_inr (cardinality m) order fs0 fs E1) as [_ [_ [Hs1 Hn1]]].
  split.
  - apply NoDup_multiply_all, Hn1, Hn0. now apply initial_nodup.
  - intros w. rewrite scope_multiply_all, Hs1, Hs0, (initial_mentions_nodes m Hm).
    split.
    + intros [[Hw Hk] Hno]. split; [|exact Hw].
      destruct (in_dec string_dec w (q :: qs)) as [Hin | Hout]; [exact Hin|].
      exfalso. apply Hno, (Permutation_in w (Permutation_sym Hperm)), In_hidden.
      tauto.
    + intros [Hv Hw]. split; [split; [exact Hw|]|].
      * intros Hk. now apply (Hq w Hk).
      * intros Hin. apply (Permutation_in _ Hperm), In_hidden in Hin.
        destruct Hin as [_ [Hin _]]. now apply Hin.
Qed.

Lemma same_members_of_one (q : string) (l1 l2 : list string) :
  NoDup l1 -> NoDup l2 ->
  (forall w, In w l1 <-> In w l2) ->
  (forall w, In w l1 -> w = q) ->
  l1 = l2.
Proof.
  assert (G : forall l, NoDup l -> (forall w, In w l -> w = q) -> l = [] \/ l = [q]).
  { intros l Hnd H. destruct l as [|a [|b l]]; [now left | right | exfalso].
    - f_equal. apply H. now left.
    - assert (Ea : a = q) by (apply H; now left).
      assert (Eb : b = q) by (apply H; right; now left).
      subst. inversion Hnd; subst. apply H2. now left. }
  intros H1 H2 Hsame Hq.
  destruct (G l1 H1 Hq) as [-> | ->], (G l2 H2) as [-> | ->]; try reflexivity.
  - intros w Hw. now apply Hq, Hsame.
  - exfalso. apply (proj2 (Hsame q)). now left.
  - intros w Hw. now apply Hq, Hsame.
  - exfalso. apply (proj1 (Hsame q)). now left.
Qed.

(** C7. Elimination-order independence: on a validated model, for a
    fixed list of query variables and fixed evidence, variable
    elimination along any two valid orders gives the same answer: the
    same error, or posteriors over the same variables whose values at
    every assignment are equal (so within [1e-6]). For a single query
    variable the two posteriors have the same scope and their arrays are
    equal entry by entry. *)
Theorem elimination_order_independence :
  forall (m : BayesianNetwork) (variables : list string) (ev : PyDict.t)
         (order1 order2 : list string),
    check_model m = true ->
    valid_order m variables ev order1 ->
    valid_order m variables ev order2 ->
    same_answer (cardinality m)
      (posterior_with_order m variables ev order1)
      (posterior_with_order m variables ev order2)
    /\ forall q f1 f2,
        variables = [q] ->
        posterior_with_order m variables ev order1 = inr f1 ->
        posterior_with_order m variables ev order2 = inr f2 ->
        scope f1 = scope f2 /\ Forall2 Qeq (values f1) (values f2).
Proof.
  intros m variables ev o1 o2 Hm H1 H2.
  assert (Hp : Permutation o1 o2).
  { unfold valid_order in *. now rewrite H1, H2. }
  assert (Hsame : same_answer (cardinality m)
                    (posterior_with_order m variables ev o1)
                    (posterior_with_order m variables ev o2)).
  { rewrite !posterior_with_order_eq.
    destruct variables as [|q qs]; [reflexivity|].
    destruct (negb (evidence_ok m (q :: qs) ev)); [reflexivity|].
    destruct (restrict_all (cardinality m) (observed ev) (map to_factor (cpds m)))
      as [e|fs0] eqn:E0; [reflexivity|].
    cbn [bind].
    apply eliminate_all_order_independent; [now apply cardinality_pos | | exact Hp].
    apply (restrict_all_props (cardinality m) _ _ _ E0), initial_nodup, Hm. }
  split; [exact Hsame|].
  intros q f1 f2 Hq E1 E2.
  destruct (posterior_with_order_scope m variables ev o1 f1 Hm H1 E1) as [Hn1 Hs1].
  destruct (posterior_with_order_scope m variables ev o2 f2 Hm H2 E2) as [Hn2 Hs2].
  rewrite E1, E2 in Hsame. destruct Hsame as [_ [_ Harr]].
  assert (Hscope : scope f1 = scope f2).
  { apply (same_members_of_one q); try assumption.
    - intros w. now rewrite Hs1, Hs2.
    - intros w Hw. apply Hs1 in Hw as [Hw _]. subst variables.
      destruct Hw as [E | []]. now symmetry. }
  split; [exact Hscope | now apply Harr].
Qed.

Lemma elimination_order_independence_witness :
  same_answer (cardinality KnowledgeBase_model)
    (posterior_with_order KnowledgeBase_model ["Nota"] []
       ["Inteligencia"; "Dificultad"; "Asistencia"])
    (posterior_with_order KnowledgeBase_model ["Nota"] []
       ["Asistencia"; "Inteligencia"; "Dificultad"]).
Proof.
  refine (proj1 (elimination_order_independence KnowledgeBase_model ["Nota"] []
                   ["Inteligencia"; "Dificultad"; "Asistencia"]
                   ["Asistencia"; "Inteligencia"; "Dificultad"] _ _ _)).
  - vm_compute. reflexivity.
  - apply Permutation_refl.
  - apply (Permutation_cons_append ["Inteligencia"; "Dificultad"] "Asistencia").
Defined.

(** ** The mass of the evidence *)

Section EvidenceMass.

Variable card : string -> nat.







End EvidenceMass.

(** ** The answer of [infer] is a distribution *)





(** On the model of the knowledge base every observation of the parents
    of Nota has mass: [infer] always returns a posterior there. *)
Lemma KnowledgeBase_answers_every_observation :
  length observations = 27
  /\ forallb (fun ev =>
               match fst (infer ev KnowledgeBase_model) with
               | inr f => close_to (Qsum (values f)) 1
               | inl _ => false
               end) observations = true.
Proof. split; vm_compute; reflexivity. Qed.

(** The engine itself refuses a value outside the domain of its
    variable: no working set is built for it. *)
Lemma infer_rejects_out_of_domain m ev v x :
  In (v, x) ev ->
  (x < 0 \/ Z.of_nat (cardinality m v) <= x)%Z ->
  fst (infer ev m) = inl InvalidEvidenceError.
Proof.
  intros Hin Hx. rewrite infer_eq, posterior_with_order_eq.
  assert (E : evidence_ok m ["Nota"] ev = false).
  { destruct (evidence_ok m ["Nota"] ev) eqn:E; [|reflexivity].
    unfold evidence_ok in E. rewrite forallb_forall in E.
    specialize (E _ Hin). simpl in E. rewrite !andb_true_iff in E.
    destruct E as [[_ H0] H1]. apply Z.leb_le in H0. apply Z.ltb_lt in H1. lia. }
  now rewrite E.
Qed.

(** * Further properties of the program *)

(** ** The fact base as a dictionary *)

(** X1. Writing a key twice is writing it once with the second value:
    the first value leaves no trace, neither in the values nor in the
    order of the keys. *)
Theorem add_fact_overwrites :
  forall (k : string) (v1 v2 : Z) (facts : FactBase),
    add_fact k v2 (add_fact k v1 facts) = add_fact k v2 facts.
Proof.
  intros k v1 v2 facts. unfold add_fact.
  induction facts as [|[k' w] d IH]; simpl.
  - now rewrite String.eqb_refl.
  - destruct (String.eqb k' k) eqn:E; simpl.
    + now rewrite String.eqb_refl.
    + now rewrite E, IH.
Qed.

Lemma keys_set k v d :
  PyDict.keys (PyDict.set k v d)
  = if mem k (PyDict.keys d) then PyDict.keys d else PyDict.keys d ++ [k].
Proof.
  unfold PyDict.keys, mem.
  induction d as [|[k' w] d IH]; simpl; [reflexivity|].
  rewrite (String.eqb_sym k k').
  destruct (String.eqb k' k) eqn:E; simpl.
  - apply String.eqb_eq in E. now subst.
  - rewrite IH. now destruct (existsb (String.eqb k) (map fst d)).
Qed.

Lemma filter_drop_absent (ks : list string) k l :
  mem k ks = true ->
  filter (fun w => negb (mem w ks)) (drop k l) = filter (fun w => negb (mem w ks)) l.
Proof.
  intros Hk. unfold drop. induction l as [|w l IH]; simpl; [reflexivity|].
  destruct (String.eqb w k) eqn:E; simpl.
  - apply String.eqb_eq in E. subst w. now rewrite Hk.
  - destruct (negb (mem w ks)); simpl; now rewrite IH.
Qed.

Lemma mem_app v a b : mem v (a ++ b) = mem v a || mem v b.
Proof. unfold mem. apply existsb_app. Qed.

Lemma filter_drop_fresh (ks : list string) k l :
  filter (fun w => negb (mem w (ks ++ [k]))) l
  = filter (fun w => negb (mem w ks)) (drop k l).
Proof.
  unfold drop. induction l as [|w l IH]; simpl; [reflexivity|].
  rewrite mem_app. unfold mem at 2. simpl. rewrite orb_false_r.
  destruct (String.eqb w k) eqn:E; simpl.
  - now rewrite orb_true_r.
  - rewrite orb_false_r. destruct (negb (mem w ks)); simpl; now rewrite IH.
Qed.

Lemma keys_add_facts writes : forall facts,
  PyDict.keys (add_facts writes facts)
  = PyDict.keys facts
    ++ filter (fun w => negb (mem w (PyDict.keys facts)))
              (first_occurrences (map fst writes)).
Proof.
  induction writes as [|[k v] ws IH]; intros facts; simpl.
  - now rewrite app_nil_r.
  - unfold add_facts in *. simpl. rewrite IH. unfold add_fact. rewrite keys_set.
    destruct (mem k (PyDict.keys facts)) eqn:E; simpl.
    + now rewrite filter_drop_absent.
    + now rewrite <- app_assoc, filter_drop_fresh.
Qed.

Lemma NoDup_first_occurrences ks : NoDup (first_occurrences ks).
Proof.
  induction ks as [|k ks IH]; simpl; constructor.
  - intros H. apply In_drop in H. now destruct H.
  - now apply NoDup_drop.
Qed.

(** X2. The keys of the fact base are the written keys, each once, in
    the order of their first write: a later write to a key never moves
    or repeats it. *)
Theorem FactBase_keys_first_write_order :
  forall writes : list (string * Z),
    PyDict.keys (get_facts (add_facts writes FactBase_init))
    = first_occurrences (map fst writes)
    /\ NoDup (PyDict.keys (get_facts (add_facts writes FactBase_init))).
Proof.
  intros writes. unfold get_facts, FactBase_init.
  rewrite keys_add_facts. simpl.
  assert (E : forall l : list string, filter (fun _ => true) l = l).
  { induction l as [|a l IHl]; simpl; [reflexivity | now rewrite IHl]. }
  change (filter (fun w => negb (mem w [])) (first_occurrences (map fst writes)))
    with (filter (fun _ : string => true) (first_occurrences (map fst writes))).
  rewrite E. split; [reflexivity | apply NoDup_first_occurrences].
Qed.

Lemma last_write_some k ws :
  last_write k ws = None -> forall v, ~ In (k, v) ws.
Proof.
  induction ws as [|[k' w] ws IH]; simpl; intros H v Hin; [exact Hin|].
  destruct (last_write k ws) eqn:E; [discriminate|].
  destruct (String.eqb k' k) eqn:E'; [discriminate|].
  destruct Hin as [Hin | Hin].
  - inversion Hin; subst. now rewrite String.eqb_refl in E'.
  - now apply (IH eq_refl v).
Qed.

(** X3. A key is missing from the fact base exactly when it was missing
    before and no [add_fact] wrote it: facts are never dropped, and no
    key appears that was not written. *)
Theorem FactBase_missing_key :
  forall (writes : list (string * Z)) (facts : FactBase) (k : string),
    PyDict.get k (get_facts (add_facts writes facts)) = None
    <-> PyDict.get k facts = None /\ forall v, ~ In (k, v) writes.
Proof.
  intros writes facts k. unfold get_facts. rewrite add_facts_get. split.
  - destruct (last_write k writes) eqn:E; [discriminate|].
    intros H. split; [exact H | now apply last_write_some].
  - intros [H Hno]. now rewrite (last_write_none k writes Hno).
Qed.

(** ** The justification log *)

(** X4. The justification log keeps every justification, in the order
    added, after the ones it already had; nothing is dropped, merged or
    reordered. *)
Theorem justifications_in_order_added :
  forall (new : list string) (js : JustificationSubsystem),
    get_justifications (add_justifications new js) = js ++ new.
Proof.
  unfold get_justifications, add_justifications, add_justification.
  induction new as [|j new IH]; intros js; simpl.
  - now rewrite app_nil_r.
  - now rewrite IH, <- app_assoc.
Qed.

(** ** The database *)




(** ** The callback on valid input *)

Lemma not_in_01_false z : not_in_01 z = false <-> binary z.
Proof.
  unfold not_in_01, binary. rewrite negb_false_iff, orb_true_iff, !Z.eqb_eq.
  tauto.
Qed.

(** A 0 or a 1 fits the column: storing it cannot raise. *)
Lemma store_fact_binary k v st :
  binary v -> store_fact k v st = inr (with_database (append_fact k v) st).
Proof. intros [-> | ->]; reflexivity. Qed.

Lemma run_inference_on_valid int s1 s2 st i a :
  int s1 = Some i -> int s2 = Some a -> binary i -> binary a ->
  run_inference int s1 s2 st
  = let facts := add_fact "Asistencia" a (add_fact "Inteligencia" i (fact_base st)) in
    match fst (infer facts (knowledge_base st)) with
    | inl e => handle (EngineError e) (after_infer i a st)
    | inr result =>
        match nth_error (values result) 1 with
        | None => handle IndexError (after_infer i a st)
        | Some p => (None, after_store i a p st)
        end
    end.
Proof.
  intros H1 H2 Hi Ha. unfold run_inference. rewrite H1, H2.
  pose proof (proj2 (not_in_01_false i) Hi) as Ni.
  pose proof (proj2 (not_in_01_false a) Ha) as Na. rewrite Ni, Na.
  cbn [orb with_facts knowledge_base fact_base get_facts].
  rewrite infer_model.
  destruct (fst (infer _ _)) as [e|f]; [reflexivity|].
  destruct (nth_error (values f) 1) as [p|]; [|reflexivity].
  rewrite (store_fact_binary "Inteligencia" i _ Hi).
  rewrite (store_fact_binary "Asistencia" a _ Ha). reflexivity.
Qed.

(** The outcomes of a click: input refused, or input accepted and then
    no probability (the engine raised, or the result has no entry 1), or
    a probability stored. *)
Lemma run_inference_cases int s1 s2 st :
  run_inference int s1 s2 st = (None, showerror st)
  \/ exists i a,
      binary i /\ binary a
      /\ ((exists e, run_inference int s1 s2 st
                     = handle e (after_infer i a st))
          \/ (exists p, run_inference int s1 s2 st
                        = (None, after_store i a p st))).
Proof.
  destruct (int s1) as [i|] eqn:E1.
  2:{ left. apply run_inference_invalid. now left. }
  destruct (int s2) as [a|] eqn:E2.
  2:{ left. apply run_inference_invalid. right. now left. }
  destruct (not_in_01 i) eqn:Ni.
  { left. unfold run_inference. now rewrite E1, E2, Ni. }
  destruct (not_in_01 a) eqn:Na.
  { left. unfold run_inference. now rewrite E1, E2, Ni, Na. }
  apply not_in_01_false in Ni, Na.
  right. exists i, a. split; [exact Ni|]. split; [exact Na|].
  rewrite (run_inference_on_valid int s1 s2 st i a E1 E2 Ni Na). cbv zeta.
  destruct (fst (infer _ _)) as [e|f]; [left; eauto|].
  destruct (nth_error (values f) 1) as [p|]; [right; eauto | left; eauto].
Qed.

(** X7. On valid input the callback records both entered values in the
    fact base and calls [infer] once, on the whole fact base, before it
    knows whether inference succeeds: whatever [infer] does, the fact
    base holds the two values afterwards and the call is in the
    history, followed at most by the error dialog. *)
Theorem valid_input_is_recorded_before_inference :
  forall int s1 s2 st i a,
    int s1 = Some i -> int s2 = Some a -> binary i -> binary a ->
    let st' := snd (run_inference int s1 s2 st) in
    let facts := add_fact "Asistencia" a (add_fact "Inteligencia" i (fact_base st)) in
    fact_base st' = facts
    /\ PyDict.get "Inteligencia" (get_facts (fact_base st')) = Some i
    /\ PyDict.get "Asistencia" (get_facts (fact_base st')) = Some a
    /\ (history st' = history st ++ [Infer (knowledge_base st) facts]
        \/ history st' = history st ++ [Infer (knowledge_base st) facts; ShowError]).
Proof.
  intros int s1 s2 st i a H1 H2 Hi Ha. cbv zeta.
  assert (Hst : fact_base (snd (run_inference int s1 s2 st))
                = add_fact "Asistencia" a (add_fact "Inteligencia" i (fact_base st))
                /\ (history (snd (run_inference int s1 s2 st))
                    = history st ++ [Infer (knowledge_base st)
                                       (add_fact "Asistencia" a
                                          (add_fact "Inteligencia" i (fact_base st)))]
                    \/ history (snd (run_inference int s1 s2 st))
                       = history st ++ [Infer (knowledge_base st)
                                          (add_fact "Asistencia" a
                                             (add_fact "Inteligencia" i (fact_base st)));
                                        ShowError])).
  { rewrite (run_inference_on_valid int s1 s2 st i a H1 H2 Hi Ha). cbv zeta.
    assert (Hh : forall e,
               fact_base (snd (handle e (after_infer i a st)))
               = add_fact "Asistencia" a (add_fact "Inteligencia" i (fact_base st))
               /\ (history (snd (handle e (after_infer i a st)))
                   = history st ++ [Infer (knowledge_base st)
                                      (add_fact "Asistencia" a
                                         (add_fact "Inteligencia" i (fact_base st)))]
                   \/ history (snd (handle e (after_infer i a st)))
                      = history st ++ [Infer (knowledge_base st)
                                         (add_fact "Asistencia" a
                                            (add_fact "Inteligencia" i (fact_base st)));
                                       ShowError])).
    { intros e. unfold handle. destruct (caught e); simpl.
      - split; [reflexivity|]. right. now rewrite <- app_assoc.
      - split; [reflexivity|]. now left. }
    destruct (fst (infer _ _)) as [e|f]; [apply Hh|].
    destruct (nth_error (values f) 1) as [p|]; [|apply Hh].
    simpl. split; [reflexivity | now left]. }
  destruct Hst as [Hf Hh]. rewrite Hf. unfold get_facts, add_fact.
  split; [reflexivity|].
  split; [rewrite get_set_other by discriminate; apply get_set_same|].
  split; [apply get_set_same | exact Hh].
Qed.

Lemma valid_input_is_recorded_before_inference_witness :
  let st := mkExpertSystem KnowledgeBase_model [("Nota", 1%Z)] [] (mkDatabase [] []) None [] in
  fact_base (snd (run_inference int_ascii "1" "0" st))
  = [("Nota", 1%Z); ("Inteligencia", 1%Z); ("Asistencia", 0%Z)].
Proof.
  intros st.
  refine (proj1 (valid_input_is_recorded_before_inference
                   int_ascii "1" "0" st 1%Z 0%Z _ _ _ _));
    [reflexivity | reflexivity | now right | now left].
Defined.

(** X8. When the input is valid and [infer] returns a result with an
    entry 1, the callback stores exactly this: one justification built
    from the fact base, the two fact rows (Inteligencia, then
    Asistencia), one result row holding entry 1, and that entry on the
    label; no exception escapes and no error dialog is shown. *)
Theorem successful_click_stores_one_result :
  forall int s1 s2 st i a result p,
    int s1 = Some i -> int s2 = Some a -> binary i -> binary a ->
    let facts := add_fact "Asistencia" a (add_fact "Inteligencia" i (fact_base st)) in
    fst (infer facts (knowledge_base st)) = inr result ->
    nth_error (values result) 1 = Some p ->
    let st' := snd (run_inference int s1 s2 st) in
    fst (run_inference int s1 s2 st) = None
    /\ justification_subsystem st'
       = justification_subsystem st
         ++ [("Resultado basado en hechos: " ++ PyDict.repr facts)%string]
    /\ facts_table (database st')
       = facts_table (database st) ++ [("Inteligencia", i); ("Asistencia", a)]
    /\ results_table (database st') = results_table (database st) ++ [p]
    /\ result_label st' = Some p
    /\ history st' = history st ++ [Infer (knowledge_base st) facts]
    /\ knowledge_base st' = knowledge_base st.
Proof.
  intros int s1 s2 st i a result p H1 H2 Hi Ha facts Hr Hp. cbv zeta.
  rewrite (run_inference_on_valid int s1 s2 st i a H1 H2 Hi Ha). cbv zeta.
  fold facts. rewrite Hr, Hp. simpl.
  rewrite <- app_assoc. repeat split.
Qed.

Lemma successful_click_stores_one_result_witness :
  let st := mkExpertSystem KnowledgeBase_model FactBase_init [] (mkDatabase [] []) None [] in
  facts_table (database (snd (run_inference int_ascii "1" "1" st)))
  = [("Inteligencia", 1%Z); ("Asistencia", 1%Z)]
  /\ exists p, results_table (database (snd (run_inference int_ascii "1" "1" st))) = [p]
               /\ (p == 0.52)%Q.
Proof.
  intros st.
  edestruct (successful_click_stores_one_result int_ascii "1" "1" st 1%Z 1%Z)
    as [_ [_ [Hfacts [Hres _]]]];
    [ reflexivity | reflexivity | now right | now right
    | vm_compute; reflexivity | vm_compute; reflexivity | ].
  split; [exact Hfacts|]. eexists. split; [exact Hres|].
  vm_compute. reflexivity.
Defined.

(** X9. When the input is valid but no probability is obtained ([infer]
    raises, or its result has no entry 1), nothing is stored: the
    database, the justification log and the label are what they were,
    although the fact base already holds the entered values. A result
    without entry 1 lets [IndexError] escape the callback. *)
Theorem failed_inference_stores_nothing :
  forall int s1 s2 st i a,
    int s1 = Some i -> int s2 = Some a -> binary i -> binary a ->
    let facts := add_fact "Asistencia" a (add_fact "Inteligencia" i (fact_base st)) in
    (exists e, fst (infer facts (knowledge_base st)) = inl e)
    \/ (exists f, fst (infer facts (knowledge_base st)) = inr f
                  /\ nth_error (values f) 1 = None) ->
    let st' := snd (run_inference int s1 s2 st) in
    database st' = database st
    /\ justification_subsystem st' = justification_subsystem st
    /\ result_label st' = result_label st
    /\ fact_base st' = facts
    /\ (forall f, fst (infer facts (knowledge_base st)) = inr f ->
                  fst (run_inference int s1 s2 st) = Some IndexError).
Proof.
  intros int s1 s2 st i a H1 H2 Hi Ha facts Hno. cbv zeta.
  rewrite (run_inference_on_valid int s1 s2 st i a H1 H2 Hi Ha). cbv zeta. fold facts.
  assert (Hh : forall e,
             database (snd (handle e (after_infer i a st))) = database st
             /\ justification_subsystem (snd (handle e (after_infer i a st)))
                = justification_subsystem st
             /\ result_label (snd (handle e (after_infer i a st))) = result_label st
             /\ fact_base (snd (handle e (after_infer i a st))) = facts).
  { intros e. unfold handle. destruct (caught e); repeat split. }
  destruct Hno as [[e He] | [f [Hf Hn]]].
  - rewrite He. destruct (Hh (EngineError e)) as [A [B [C D]]].
    repeat split; try assumption. intros f Hf. discriminate Hf.
  - rewrite Hf, Hn. destruct (Hh IndexError) as [A [B [C D]]].
    repeat split; try assumption.
Qed.

Lemma failed_inference_stores_nothing_witness :
  let st := mkExpertSystem KnowledgeBase_model [("Nota", 1%Z)] []
                           (mkDatabase [("Inteligencia", 0%Z)] [0.5%Q]) (Some 0.5%Q) [] in
  database (snd (run_inference int_ascii "1" "0" st)) = database st
  /\ fact_base (snd (run_inference int_ascii "1" "0" st))
     = [("Nota", 1%Z); ("Inteligencia", 1%Z); ("Asistencia", 0%Z)].
Proof.
  intros st.
  edestruct (failed_inference_stores_nothing int_ascii "1" "0" st 1%Z 0%Z)
    as [Hdb [_ [_ [Hfacts _]]]];
    [ reflexivity | reflexivity | now right | now left
    | left; eexists; vm_compute; reflexivity | ].
  split; [exact Hdb | exact Hfacts].
Defined.

(** ** What a run of clicks leaves behind *)

Lemma stores_nothing st st' :
  database st' = database st ->
  result_label st' = result_label st ->
  justification_subsystem st' = justification_subsystem st ->
  stores [] st st'.
Proof.
  intros Hd Hl Hj. unfold stores. rewrite Hd, Hl, Hj. simpl.
  rewrite !app_nil_r, Nat.add_0_r. repeat split. constructor.
Qed.

Lemma stores_app l1 l2 st0 st1 st2 :
  stores l1 st0 st1 -> stores l2 st1 st2 -> stores (l1 ++ l2) st0 st2.
Proof.
  unfold stores. intros [A1 [B1 [C1 [D1 E1]]]] [A2 [B2 [C2 [D2 E2]]]].
  rewrite A2, A1, B2, B1, D2, D1, E2, E1.
  rewrite flat_map_app, map_app, length_app, <- !app_assoc.
  unfold label_after. rewrite fold_left_app.
  repeat split; [apply Forall_app; now split | lia].
Qed.

Lemma logs_app l1 l2 st0 st1 st2 :
  knowledge_base st1 = knowledge_base st0 ->
  logs l1 st0 st1 -> logs l2 st1 st2 -> logs (l1 ++ l2) st0 st2.
Proof.
  unfold logs. intros Hkb [_ [J1 [h1 [H1 F1]]]] [S2 [J2 [h2 [H2 F2]]]].
  split; [exact S2|].
  split; [now rewrite J2, J1, map_app, <- app_assoc|].
  exists (h1 ++ h2). split; [now rewrite H2, H1, <- app_assoc|].
  rewrite Hkb in F2. apply Forall_app. now split.
Qed.

Lemma facts_shape_after i a d :
  facts_shape d ->
  add_fact "Asistencia" a (add_fact "Inteligencia" i d)
  = [("Inteligencia", i); ("Asistencia", a)].
Proof. intros [-> | [i0 [a0 [_ [_ ->]]]]]; reflexivity. Qed.

Lemma handle_after_infer e i a st :
  binary i -> binary a ->
  stores [] st (snd (handle e (after_infer i a st)))
  /\ (facts_shape (fact_base st) -> logs [] st (snd (handle e (after_infer i a st)))).
Proof.
  intros Hi Ha. split.
  - apply stores_nothing; unfold handle; now destruct (caught e).
  - intros Hs. pose proof (facts_shape_after i a (fact_base st) Hs) as Hf.
    assert (Hev : program_event (knowledge_base st)
                    (Infer (knowledge_base st)
                       (add_fact "Asistencia" a
                          (add_fact "Inteligencia" i (fact_base st))))).
    { right. exists (i, a, 0%Q). split; [now split|]. now rewrite Hf. }
    unfold logs, handle. destruct (caught e); simpl.
    + split; [right; exists i, a; now rewrite Hf|].
      split; [now rewrite app_nil_r|].
      eexists. split; [now rewrite <- app_assoc|].
      constructor; [exact Hev|]. constructor; [now left | constructor].
    + split; [right; exists i, a; now rewrite Hf|].
      split; [now rewrite app_nil_r|].
      eexists. split; [reflexivity|]. constructor; [exact Hev | constructor].
Qed.

Lemma run_inference_stores int s1 s2 st :
  exists stored,
    stores stored st (snd (run_inference int s1 s2 st))
    /\ length stored <= 1
    /\ (facts_shape (fact_base st) ->
        logs stored st (snd (run_inference int s1 s2 st))).
Proof.
  destruct (run_inference_cases int s1 s2 st)
    as [E | [i [a [Hi [Ha [[e E] | [p E]]]]]]]; rewrite E.
  - exists []. split; [now apply stores_nothing|]. split; [simpl; lia|].
    intros Hs. unfold logs. simpl. split; [exact Hs|].
    split; [now rewrite app_nil_r|].
    exists [ShowError]. split; [reflexivity|]. constructor; [now left | constructor].
  - exists []. destruct (handle_after_infer e i a st Hi Ha) as [A B].
    split; [exact A|]. split; [simpl; lia | exact B].
  - exists [(i, a, p)]. split; [|split; [simpl; lia|]].
    + unfold stores. simpl. unfold add_justification.
      rewrite <- !app_assoc, length_app. simpl.
      repeat split. constructor; [now split | constructor].
    + intros Hs. pose proof (facts_shape_after i a (fact_base st) Hs) as Hf.
      unfold logs. simpl. unfold get_facts. rewrite Hf.
      split; [right; now exists i, a|]. split; [reflexivity|].
      eexists. split; [reflexivity|].
      constructor; [|constructor]. right. exists (i, a, p). now split.
Qed.

Lemma mainloop_stores int clicks : forall st,
  exists stored,
    stores stored st (mainloop int clicks st)
    /\ length stored <= length clicks
    /\ (facts_shape (fact_base st) -> logs stored st (mainloop int clicks st)).
Proof.
  induction clicks as [|[s1 s2] clicks IH]; intros st.
  - exists []. split; [now apply stores_nothing|]. split; [simpl; lia|].
    intros Hs. unfold logs. simpl. split; [exact Hs|].
    split; [now rewrite app_nil_r|].
    exists []. split; [now rewrite app_nil_r | constructor].
  - destruct (run_inference_stores int s1 s2 st) as [l1 [A1 [B1 C1]]].
    destruct (IH (snd (run_inference int s1 s2 st))) as [l2 [A2 [B2 C2]]].
    destruct (run_inference_step int s1 s2 st) as [_ [_ [_ Hkb]]].
    exists (l1 ++ l2).
    change (mainloop int ((s1, s2) :: clicks) st)
      with (mainloop int clicks (snd (run_inference int s1 s2 st))).
    split; [exact (stores_app l1 l2 st _ _ A1 A2)|].
    split; [rewrite length_app; simpl; lia|].
    intros Hs. specialize (C1 Hs).
    apply (logs_app l1 l2 st _ _ Hkb C1), C2. now destruct C1.
Qed.

(** X10. Whatever is clicked, from any state: the two tables only grow;
    the facts table grows by one pair of rows (Inteligencia, then
    Asistencia, each 0 or 1) for every row the results table grows by,
    the justification log by one entry per result, and at most one
    result is stored per click. *)
Theorem clicks_store_facts_in_pairs :
  forall int (clicks : list (string * string)) (st : ExpertSystem),
  exists stored : list Stored,
    let st' := mainloop int clicks st in
    facts_table (database st')
    = facts_table (database st) ++ flat_map fact_rows stored
    /\ results_table (database st') = results_table (database st) ++ map snd stored
    /\ Forall binary_entries stored
    /\ length (justification_subsystem st')
       = length (justification_subsystem st) + length stored
    /\ length (facts_table (database st')) - length (facts_table (database st))
       = 2 * (length (results_table (database st'))
              - length (results_table (database st)))
    /\ length stored <= length clicks.
Proof.
  intros int clicks st.
  destruct (mainloop_stores int clicks st) as [stored [[A [B [C [_ E]]]] [F _]]].
  exists stored. cbv zeta.
  split; [exact A|]. split; [exact B|]. split; [exact C|]. split; [exact E|].
  split; [|exact F].
  rewrite A, B, !length_app, length_map.
  assert (G : length (flat_map fact_rows stored) = 2 * length stored).
  { clear. induction stored as [|s l IH]; simpl; [reflexivity | rewrite IH; lia]. }
  rewrite G. unfold Stored in *. lia.
Qed.

(** X11. In every execution of the program the three records agree:
    there is one list of stored clicks such that the facts table is the
    earlier content of the file followed by their pairs of rows, the
    results table the earlier content followed by their probabilities,
    and the justification log exactly their texts,
    [Resultado basado en hechos: {'Inteligencia': i, 'Asistencia': a}].
    The fact base is empty or holds just these two keys, and [infer] is
    only ever called with those two keys as evidence. *)
Theorem program_records_agree :
  forall int (db : Database) (clicks : list (string * string)),
  exists (st : ExpertSystem) (stored : list Stored),
    main int db clicks = inr st
    /\ facts_shape (fact_base st)
    /\ justification_subsystem st = map justification_of stored
    /\ facts_table (database st) = facts_table db ++ flat_map fact_rows stored
    /\ results_table (database st) = results_table db ++ map snd stored
    /\ Forall binary_entries stored
    /\ forall m ev, In (Infer m ev) (history st) ->
         exists i a, binary i /\ binary a
                     /\ ev = [("Inteligencia", i); ("Asistencia", a)].
Proof.
  intros int db clicks.
  unfold main. rewrite !ExpertSystem_init_ok.
  match goal with |- context [mainloop int clicks ?s] => set (st0 := s) end.
  destruct (mainloop_stores int clicks st0) as [stored [[A [B [C _]]] [_ L]]].
  destruct (L (or_introl eq_refl)) as [Hs [J [h [Hh Fh]]]].
  exists (mainloop int clicks st0), stored.
  split; [reflexivity|]. split; [exact Hs|]. split; [exact J|].
  split; [exact A|]. split; [exact B|]. split; [exact C|].
  intros m ev Hin. rewrite Hh in Hin. simpl in Hin.
  destruct Hin as [Hin | Hin]; [discriminate Hin|].
  rewrite Forall_forall in Fh. destruct (Fh _ Hin) as [E | [s [[Hi Ha] E]]].
  - discriminate E.
  - inversion E; subst. exists (fst (fst s)), (snd (fst s)). now repeat split.
Qed.

(** X12. The label follows the results table: after any clicks from any
    state, if no result was stored the label is what it was, and
    otherwise it shows the last row of the results table. *)
Theorem label_shows_last_result :
  forall int (clicks : list (string * string)) (st : ExpertSystem),
    let st' := mainloop int clicks st in
    (results_table (database st') = results_table (database st) ->
     result_label st' = result_label st)
    /\ (results_table (database st') <> results_table (database st) ->
        result_label st' = Some (last (results_table (database st')) 0%Q)).
Proof.
  intros int clicks st. cbv zeta.
  destruct (mainloop_stores int clicks st) as [stored [[_ [B [_ [D _]]]] _]].
  rewrite B, D. clear B D.
  destruct stored as [|s l] using rev_ind.
  - simpl. rewrite app_nil_r. split; [reflexivity | congruence].
  - split.
    + intros E. rewrite <- (app_nil_r (results_table (database st))) in E at 2.
      apply app_inv_head in E. rewrite map_app in E.
      now apply app_eq_nil in E as [_ E].
    + intros _. unfold label_after. rewrite fold_left_app. simpl.
      rewrite map_app. simpl. now rewrite app_assoc, last_last.
Qed.

Lemma label_shows_last_result_witness :
  let st := mkExpertSystem KnowledgeBase_model FactBase_init []
                           (mkDatabase [] [0.5%Q]) None [] in
  result_label (mainloop int_ascii [("1", "1"); ("x", "1")] st)
  = Some (last (results_table
                  (database (mainloop int_ascii [("1", "1"); ("x", "1")] st))) 0%Q).
Proof.
  intros st.
  apply (proj2 (label_shows_last_result int_ascii [("1", "1"); ("x", "1")] st)).
  vm_compute. discriminate.
Defined.

(** The text of a justification, spelled out. *)
Lemma justification_of_binary (s : Stored) :
  binary_entries s ->
  justification_of s
  = ("Resultado basado en hechos: {'Inteligencia': "
       ++ (if Z.eqb (fst (fst s)) 0 then "0" else "1")
       ++ ", 'Asistencia': "
       ++ (if Z.eqb (snd (fst s)) 0 then "0" else "1") ++ "}")%string.
Proof.
  destruct s as [[i a] p]. unfold binary_entries, binary. simpl.
  intros [[-> | ->] [-> | ->]]; reflexivity.
Qed.

(** ** Restarting the program *)

(** X13. A second run of the program on the file the first run left
    starts from an empty fact base and an empty justification log, while
    the database carries over: after the second run the tables are the
    first run's tables followed by the rows of the second run, and the
    log holds the justifications of the second run only. *)
Theorem restart_keeps_database_only :
  forall int (db : Database) (clicks1 clicks2 : list (string * string)),
  exists (st1 st2 : ExpertSystem) (stored2 : list Stored),
    main int db clicks1 = inr st1
    /\ main int (Database_init (Database_file (database st1))) clicks2 = inr st2
    /\ facts_table (database st2)
       = facts_table (database st1) ++ flat_map fact_rows stored2
    /\ results_table (database st2)
       = results_table (database st1) ++ map snd stored2
    /\ justification_subsystem st2 = map justification_of stored2
    /\ facts_shape (fact_base st2).
Proof.
  intros int db clicks1 clicks2.
  unfold main. rewrite !ExpertSystem_init_ok.
  match goal with |- context [mainloop int clicks1 ?s] => set (st0 := s) end.
  exists (mainloop int clicks1 st0).
  assert (E : Database_init (Database_file (database (mainloop int clicks1 st0)))
              = database (mainloop int clicks1 st0)).
  { now destruct (database (mainloop int clicks1 st0)). }
  rewrite E, ExpertSystem_init_ok.
  match goal with |- context [mainloop int clicks2 ?s] => set (st0' := s) end.
  destruct (mainloop_stores int clicks2 st0') as [stored [[A [B _]] [_ L]]].
  destruct (L (or_introl eq_refl)) as [Hs [J _]].
  exists (mainloop int clicks2 st0'), stored.
  repeat split; assumption.
Qed.

(** ** Knowledge acquisition, batch after batch *)

Lemma attach_held c cs :
  find (fun c0 => String.eqb (variable c0) (variable c)) cs = Some c ->
  attach c cs = cs.
Proof.
  induction cs as [|c0 cs IH]; simpl; [discriminate|].
  destruct (String.eqb (variable c0) (variable c)).
  - intros H. now inversion H.
  - intros H. now rewrite IH.
Qed.

Lemma attach_all_held batch : forall m,
  (forall c, In c batch -> get_cpd (variable c) m = Some c) ->
  attach_all batch m = m.
Proof.
  induction batch as [|c batch IH]; intros m H; [reflexivity|].
  assert (E : attach_cpd c m = m).
  { unfold attach_cpd. rewrite attach_held by (apply H; now left). now destruct m. }
  unfold attach_all in *. simpl. rewrite E. apply IH.
  intros c' Hc'. apply H. now right.
Qed.

Lemma attached_incl m batch c : In c (attached m batch) -> In c batch.
Proof.
  induction batch as [|c0 batch IH]; simpl; [tauto|].
  destruct (on_nodes m c0); simpl; [|tauto].
  intros [E | Hin]; [now left | right; now apply IH].
Qed.

(** In a model that validates, the CPD a variable holds is on variables
    of the model. *)
Lemma held_on_nodes m c :
  check_model m = true -> get_cpd (variable c) m = Some c -> on_nodes m c = true.
Proof.
  intros Hm Hc. apply find_some in Hc as [Hc _].
  destruct (cpd_ok_parts m c (check_model_cpd_ok m c Hm Hc)) as [_ [Hv [_ [Hp _]]]].
  apply check_model_parts in Hm as [_ [He _]]. rewrite forallb_forall in He.
  unfold on_nodes. apply forallb_forall. intros w [<- | Hw].
  - now apply mem_In.
  - apply Hp in Hw. unfold parents in Hw.
    apply in_map_iff in Hw as [e [<- He']]. apply filter_In in He' as [He' _].
    specialize (He e He'). now apply andb_prop in He as [He _].
Qed.

Lemma add_cpds_app batch1 batch2 : forall m,
  add_cpds (batch1 ++ batch2) m
  = match add_cpds batch1 m with
    | (Some e, m1) => (Some e, m1)
    | (None, m1) => add_cpds batch2 m1
    end.
Proof.
  induction batch1 as [|c batch1 IH]; intros m; simpl; [reflexivity|].
  destruct (on_nodes m c); [apply IH | reflexivity].
Qed.

(** X14. A batch split over two calls. When the loop of the first call
    attaches its whole batch (the call then returns, or raises from its
    validation), the second call ends with the model and the outcome
    that one call on the whole batch gives, because a call that raises
    keeps what it attached. When the loop of the first call stops at a
    CPD that is not on variables of the model, one call on the whole
    batch stops there too, with the same outcome and the same model, and
    never looks at the rest of the batch. *)
Theorem update_knowledge_in_two_calls :
  forall (batch1 batch2 : list TabularCPD) (m : BayesianNetwork),
    (attached m batch1 = batch1 ->
     update_knowledge (batch1 ++ batch2) m
     = update_knowledge batch2 (snd (update_knowledge batch1 m)))
    /\ (attached m batch1 <> batch1 ->
        update_knowledge (batch1 ++ batch2) m = update_knowledge batch1 m
        /\ fst (update_knowledge batch1 m) = Some ValueError).
Proof.
  intros batch1 batch2 m.
  pose proof (attached_all m batch1) as Ha.
  unfold update_knowledge. rewrite !add_each_eq, add_cpds_app.
  rewrite (add_cpds_eq batch1 m).
  destruct (forallb (on_nodes m) batch1).
  - split.
    + intros _.
      destruct (check_model (attach_all (attached m batch1) m)); reflexivity.
    + intros E. contradiction E. now apply Ha.
  - split; [|intros _; split; reflexivity].
    intros E. apply Ha in E. discriminate.
Qed.

Lemma update_knowledge_in_two_calls_witness :
  update_knowledge ([cpd_dificultad_even] ++ [cpd_inteligencia_bad]) KnowledgeBase_model
  = update_knowledge [cpd_inteligencia_bad]
      (snd (update_knowledge [cpd_dificultad_even] KnowledgeBase_model)).
Proof.
  refine (proj1 (update_knowledge_in_two_calls
                   [cpd_dificultad_even] [cpd_inteligencia_bad]
                   KnowledgeBase_model) _).
  vm_compute. reflexivity.
Defined.

(** X15. A batch that only gives variables the CPDs they already hold
    (the empty batch among them) leaves the model as it is, and the
    call raises exactly when the model it was given does not validate:
    [AssertionError] from the validation when every CPD of the batch is
    on variables of the model, and [ValueError] from the loop
    otherwise, which happens only on a model that does not validate. *)
Theorem update_knowledge_with_held_cpds :
  forall (batch : list TabularCPD) (m : BayesianNetwork),
    (forall c, In c batch -> get_cpd (variable c) m = Some c) ->
    update_knowledge batch m
    = (if forallb (on_nodes m) batch
       then (if check_model m then None else Some AssertionError)
       else Some ValueError, m)
    /\ (fst (update_knowledge batch m) = None <-> check_model m = true)
    /\ (check_model m = true -> update_knowledge batch m = (None, m)).
Proof.
  intros batch m H.
  assert (E : update_knowledge batch m
              = (if forallb (on_nodes m) batch
                 then (if check_model m then None else Some AssertionError)
                 else Some ValueError, m)).
  { rewrite update_knowledge_eq.
    rewrite (attach_all_held batch m H).
    rewrite (attach_all_held (attached m batch) m)
      by (intros c Hc; apply H; now apply (attached_incl m batch)).
    now destruct (forallb (on_nodes m) batch). }
  assert (F : check_model m = true -> forallb (on_nodes m) batch = true).
  { intros Hm. apply forallb_forall. intros c Hc.
    apply held_on_nodes; [exact Hm | now apply H]. }
  split; [exact E|]. rewrite E. simpl.
  destruct (check_model m).
  - rewrite (F eq_refl). repeat split; reflexivity.
  - destruct (forallb (on_nodes m) batch); repeat split; discriminate.
Qed.

Lemma update_knowledge_with_held_cpds_witness :
  update_knowledge [cpd_nota; cpd_inteligencia] KnowledgeBase_model
  = (None, KnowledgeBase_model).
Proof.
  refine (proj2 (proj2 (update_knowledge_with_held_cpds
                          [cpd_nota; cpd_inteligencia] KnowledgeBase_model _)) _).
  - intros c [<- | [<- | []]]; reflexivity.
  - vm_compute. reflexivity.
Defined.

(** X16. A CPD that is not on variables of the model ends the loop of
    [update_knowledge]: the call raises [ValueError] without validating
    anything, the CPDs before that one are attached, and neither that
    CPD nor any CPD after it is. *)
Theorem update_knowledge_stops_at_unknown_variable :
  forall (batch1 batch2 : list TabularCPD) (cpd : TabularCPD) (m : BayesianNetwork),
    attached m batch1 = batch1 ->
    on_nodes m cpd = false ->
    update_knowledge (batch1 ++ cpd :: batch2) m
    = (Some ValueError, attach_all batch1 m)
    /\ forall v, get_cpd v (snd (update_knowledge (batch1 ++ cpd :: batch2) m))
                 = match last_cpd v batch1 with
                   | Some c => Some c
                   | None => get_cpd v m
                   end.
Proof.
  intros batch1 batch2 cpd m H1 Hc.
  assert (E : update_knowledge (batch1 ++ cpd :: batch2) m
              = (Some ValueError, attach_all batch1 m)).
  { unfold update_knowledge. rewrite add_each_eq, add_cpds_app, add_cpds_eq, H1.
    apply attached_all in H1. rewrite H1. simpl.
    unfold on_nodes in *. rewrite (proj1 (attach_all_graph batch1 m)), Hc.
    reflexivity. }
  split; [exact E|]. intros v. rewrite E. apply get_cpd_attach_all.
Qed.

Lemma update_knowledge_stops_at_unknown_variable_witness :
  update_knowledge ([cpd_dificultad_even] ++ cpd_motivacion :: [cpd_asistencia_high])
    KnowledgeBase_model
  = (Some ValueError, attach_all [cpd_dificultad_even] KnowledgeBase_model).
Proof.
  refine (proj1 (update_knowledge_stops_at_unknown_variable
                   [cpd_dificultad_even] [cpd_asistencia_high] cpd_motivacion
                   KnowledgeBase_model _ _)).
  - vm_compute. reflexivity.
  - vm_compute. reflexivity.
Defined.
